(** * qwq: a chat relay between QQ groups

    Shallow embedding of [src/index.ts]: the rolling identity cache
    ([StoredMessages]), the rewriting of a message chain for one destination
    group (the [filter] / [map] pipeline of the [GroupMessage] handler) and
    the fan-out with its mapping-recording loop.

    JavaScript numbers that carry ids are integers ([Z]); a [Map] is a
    [gmap]; the array of groups is a list whose positions stand for the
    identity of the group objects (and of their [stored] caches).  The
    platform call [mirai.api.sendGroupMessage] is a parameter of the
    handler: it answers the n-th send of a fan-out with a message id, or
    with the value the call rejects with. *)

From stdpp Require Import gmap list strings.

(** ** StoredMessages: the two-generation cache *)

Record StoredMessage := { id : Z; author : Z }.

#[global] Instance StoredMessage_eq_dec : EqDecision StoredMessage.
Proof. solve_decision. Defined.

Module Cache.

(** [private threshold = 200] *)
Definition threshold : nat := 200.

(** [data] is the array of the two maps, [currentIndex] and [otherIndex]
    select the generation written to and the older one. *)
Record StoredMessages := {
  data : list (gmap Z StoredMessage);
  currentIndex : nat;
  otherIndex : nat }.

Definition generation (s : StoredMessages) (i : nat) : gmap Z StoredMessage :=
  default ∅ (data s !! i).

(** [get current()] and [get other()] *)
Definition current (s : StoredMessages) := generation s (currentIndex s).
Definition other (s : StoredMessages) := generation s (otherIndex s).

(** [new StoredMessages()] *)
Definition new_StoredMessages : StoredMessages :=
  {| data := [∅; ∅]; currentIndex := 0; otherIndex := 1 |}.

(** [this.current.size > this.threshold] *)
Definition over_threshold (s : StoredMessages) : bool :=
  bool_decide (threshold < size (current s)).

(** The body of the [if] of [add]: the two indices are exchanged, then the
    map that is now current is cleared. *)
Definition rotate (s : StoredMessages) : StoredMessages :=
  {| data := <[otherIndex s := ∅]> (data s);
     currentIndex := otherIndex s;
     otherIndex := currentIndex s |}.

Definition add (original : Z) (translated : StoredMessage)
    (s : StoredMessages) : StoredMessages :=
  let s1 := if over_threshold s then rotate s else s in
  {| data := <[currentIndex s1 := <[original := translated]> (current s1)]> (data s1);
     currentIndex := currentIndex s1;
     otherIndex := otherIndex s1 |}.

(** [this.current.get(messageId) || this.other.get(messageId)]: the values
    are objects, hence truthy whenever present. *)
Definition translate (messageId : Z) (s : StoredMessages) : option StoredMessage :=
  match current s !! messageId with
  | Some v => Some v
  | None => other s !! messageId
  end.

(** A sequence of [add] calls, oldest first. *)
Definition add_all (l : list (Z * StoredMessage)) (s : StoredMessages) : StoredMessages :=
  foldl (λ s kv, add kv.1 kv.2 s) s l.

(** The keys for which [translate] answers. *)
Definition reachable (s : StoredMessages) : gset Z :=
  dom (current s) ∪ dom (other s).

(** The class invariant kept by the constructor and by [add]: two maps, and
    the indices are 0 and 1 in one order or the other. *)
Definition wf (s : StoredMessages) : Prop :=
  length (data s) = 2 ∧
  ((currentIndex s = 0 ∧ otherIndex s = 1) ∨ (currentIndex s = 1 ∧ otherIndex s = 0)).

End Cache.

Export Cache.

(** ** Message chains *)

(** The segments of a [MessageChain] that the handler tells apart; every
    other kind ([Image], [Face], [AtAll], ...) is [Opaque].  Of a [Quote]
    only the [id] is read. *)
Inductive MessageType :=
  | Source (source_id time : Z)
  | Quote (quote_id : Z)
  | At (target : Z) (display : string)
  | Plain (text : string)
  | Opaque (type : string).

#[global] Instance MessageType_eq_dec : EqDecision MessageType.
Proof. solve_decision. Defined.

(** One entry of the [groups] array built in [app]. *)
Record Group := {
  group : Z;
  members : gmap Z string;
  stored : StoredMessages }.

(** A [GroupMessage] event: [msg.sender.group.id], [msg.sender.id] and the
    chain, whose first element is typed as the [Source] segment. *)
Record GroupMessage := {
  sender_group : Z;
  sender_id : Z;
  source : Z * Z;
  body : list MessageType }.

Definition messageChain (msg : GroupMessage) : list MessageType :=
  Source (source msg).1 (source msg).2 :: body msg.

(** [msg.messageChain[0].id] *)
Definition messageId (msg : GroupMessage) : Z := (source msg).1.

(** The arguments of one [sendGroupMessage(processed, group, quote?.id)]. *)
Record SendCall := {
  call_chain : list MessageType;
  call_group : Z;
  call_quote : option Z }.

#[global] Instance SendCall_eq_dec : EqDecision SendCall.
Proof. solve_decision. Defined.

(** The value a send rejects with, as far as the [catch] block looks at
    it: [undefined], [null], or any other value, of which it matters only
    whether [JSON.stringify] serialises it (it throws on a cyclic object
    or a BigInt). *)
Inductive Rejection :=
  | RejectUndefined
  | RejectNull
  | RejectValue (stringifies : bool).

(** What [await mirai.api.sendGroupMessage(...)] gives: [sent] with its
    [messageId], or a rejection. *)
Inductive SendResult :=
  | Sent (messageId : Z)
  | Rejected (e : Rejection).

(** Whether the [catch] block itself throws:
    [console.warn(`${JSON.stringify(e)}; type = ${typeof e};
    ${e.constructor?.name}`)] reads [e.constructor], a [TypeError] on
    [undefined] and [null], and calls [JSON.stringify(e)]. *)
Definition catch_throws (e : Rejection) : bool :=
  match e with
  | RejectUndefined | RejectNull => true
  | RejectValue stringifies => negb stringifies
  end.

(** What the promise of the destination at position [t] settles to:
    [Some (Some r)] is the result object, [Some None] is [undefined] (the
    send threw and the [catch] block logged it), [None] is a rejection (the
    [catch] block threw). *)
Definition settle (t : nat) (r : SendResult) : option (option (Z * nat)) :=
  match r with
  | Sent sentId => Some (Some (sentId, t))
  | Rejected e => if catch_throws e then None else Some None
  end.

Definition is_quote (x : MessageType) : bool :=
  match x with Quote _ => true | _ => false end.

Section Relay.

(** [qq] of the configuration: the account the relay runs as. *)
Variable qq : Z.

Definition is_at_me (x : MessageType) : bool :=
  match x with At target _ => bool_decide (target = qq) | _ => false end.

(** The callback of [msg.messageChain.filter], with the two variables it
    closes over ([quote], [atMeCounter]) threaded through the chain.  The
    result is the kept segments and the final [quote]. *)
Fixpoint filter_chain (stored : StoredMessages) (quote : option StoredMessage)
    (atMeCounter : nat) (chain : list MessageType)
    : list MessageType * option StoredMessage :=
  match chain with
  | [] => ([], quote)
  | x :: rest =>
    match x with
    | At target _ =>
      if bool_decide (is_Some quote) && bool_decide (target = qq) then
        (* return atMeCounter++ === 0 *)
        let r := filter_chain stored quote (S atMeCounter) rest in
        (if bool_decide (atMeCounter = 0) then x :: r.1 else r.1, r.2)
      else
        let r := filter_chain stored quote atMeCounter rest in (x :: r.1, r.2)
    | Quote i =>
      (* quote = stored.translate(x.id) || quote; return false *)
      let quote' := match translate i stored with Some q => Some q | None => quote end in
      filter_chain stored quote' atMeCounter rest
    | _ =>
      let r := filter_chain stored quote atMeCounter rest in (x :: r.1, r.2)
    end
  end.

(** [quote?.author || qq]: an absent quote and an author that is 0 both
    give [qq]. *)
Definition author_or_qq (quote : option StoredMessage) : Z :=
  match quote with
  | Some q => if bool_decide (author q = 0%Z) then qq else author q
  | None => qq
  end.

(** The loop over [searchFrom]: the first truthy (non-empty) name wins,
    [name] starts as [x.display]. *)
Fixpoint search_name (target : Z) (searchFrom : list (gmap Z string))
    (name : string) : string :=
  match searchFrom with
  | [] => name
  | members :: rest =>
    match members !! target with
    | Some match_ => if bool_decide (match_ = "") then search_name target rest name else match_
    | None => search_name target rest name
    end
  end.

(** The callback of [.map], for the destination group [dest] (the source
    destructures its [members]). *)
Definition map_segment (groups : list Group) (originalGroup : option Group)
    (dest : Group) (quote : option StoredMessage)
    (x : MessageType) : MessageType :=
  match x with
  | At target display =>
    let target := if bool_decide (target = qq) then author_or_qq quote else target in
    if bool_decide (Some target ≠ author <$> quote)
       || negb (bool_decide (is_Some (members dest !! target))) then
      let searchFrom :=
        match originalGroup with
        | Some og => [members dest; members og]
        | None => [members dest]
        end ++ (members <$> groups) in
      Plain ("@" +:+ search_name target searchFrom display)
    else At target display
  | _ => x
  end.

(** [processed] and [quote] as they stand when [sendGroupMessage] is
    called for the destination [dest]. *)
Definition process_chain (groups : list Group) (originalGroup : option Group)
    (dest : Group) (chain : list MessageType)
    : list MessageType * option StoredMessage :=
  let r := filter_chain (stored dest) None 0 chain in
  (map_segment groups originalGroup dest r.2 <$> r.1, r.2).

Definition make_call (groups : list Group) (originalGroup : option Group)
    (dest : Group) (chain : list MessageType) : SendCall :=
  let r := process_chain groups originalGroup dest chain in
  {| call_chain := r.1; call_group := group dest; call_quote := id <$> r.2 |}.

(** [groups.filter(({ group }) => group !== fromGroup)], each destination
    with its position in [groups]. *)
Definition targets (groups : list Group) (fromGroup : Z) : list (nat * Group) :=
  filter (λ ig, group ig.2 ≠ fromGroup) (imap pair groups).

(** ** The mapping-recording loop *)

Definition update_stored (f : StoredMessages → StoredMessages) (g : Group) : Group :=
  {| group := group g; members := members g; stored := f (stored g) |}.

(** [results.filter(other => other.targetStorage !== targetStorage)] *)
Definition others (results : list (Z * nat)) (t : nat) : list (Z * nat) :=
  filter (λ other, other.2 ≠ t) results.

(** One turn of [for (const { sentId, targetStorage } of results)]; [o] is
    the position of [originalGroup]. *)
Definition record_one (messageId messageAuthor : Z) (o : nat)
    (results : list (Z * nat)) (groups : list Group) (r : Z * nat) : list Group :=
  let sentId := r.1 in
  let t := r.2 in
  let v := {| id := sentId; author := messageAuthor |} in
  let groups1 :=
    foldl (λ gs other, alter (update_stored (add other.1 v)) t gs)
          groups (others results t) in
  let groups2 := alter (update_stored (add messageId v)) t groups1 in
  alter (update_stored (add sentId {| id := messageId; author := messageAuthor |}))
        o groups2.

Definition record_mappings (messageId messageAuthor : Z) (o : nat)
    (results : list (Z * nat)) (groups : list Group) : list Group :=
  foldl (record_one messageId messageAuthor o results) groups results.

(** ** The [GroupMessage] handler *)

(** [sendGroupMessage n call]: what the n-th send of the fan-out gives. *)
Variable sendGroupMessage : nat → SendCall → SendResult.

(** The sends of one fan-out, in the order of [groups], each with the
    position of its destination. *)
Definition fan_out_calls (groups : list Group) (msg : GroupMessage)
    : list (nat * SendCall) :=
  match list_find (λ g, group g = sender_group msg) groups with
  | None => []
  | Some (_, originalGroup) =>
    (λ ig, (ig.1, make_call groups (Some originalGroup) ig.2 (messageChain msg)))
      <$> targets groups (sender_group msg)
  end.

(** [await Promise.all(promises)]: what the promises settled to, or
    [None] when one of them rejects. *)
Definition fan_out_settled (groups : list Group) (msg : GroupMessage)
    : option (list (option (Z * nat))) :=
  mapM (λ x, x)
    (imap (λ n tc, settle tc.1 (sendGroupMessage n tc.2))
          (fan_out_calls groups msg)).

(** [.filter(x => x !== undefined)] *)
Definition successes (settled : list (option (Z * nat))) : list (Z * nat) :=
  omap (λ x, x) settled.

(** The [results] that the recording loop runs over: none when
    [Promise.all] rejects, since the loop is not reached then. *)
Definition fan_out_results (groups : list Group) (msg : GroupMessage)
    : list (Z * nat) :=
  match fan_out_settled groups msg with
  | Some settled => successes settled
  | None => []
  end.

(** The handler: the new [groups] and the sends it issued.  All sends are
    issued before the first of them settles.  When [Promise.all] rejects,
    the loop is skipped, [finally] releases the mutex and the handler
    rejects with the groups as they were. *)
Definition onGroupMessage (groups : list Group) (msg : GroupMessage)
    : list Group * list SendCall :=
  match list_find (λ g, group g = sender_group msg) groups with
  | None => (groups, [])
  | Some (o, _) =>
    (match fan_out_settled groups msg with
     | Some settled =>
       record_mappings (messageId msg) (sender_id msg) o (successes settled) groups
     | None => groups
     end,
     (fan_out_calls groups msg).*2)
  end.

End Relay.

(** ** Notions used to state the properties *)

(** Each generation holds at most [threshold + 1] entries. *)
Definition bounded (s : StoredMessages) : Prop :=
  wf s ∧ size (current s) ≤ S threshold ∧ size (other s) ≤ S threshold.

(** Survival of an entry across later insertions.
    [holds k v n s]: [translate k] answers [v], either from the current
    generation or from the older one while the current one has at most [n]
    entries. *)
Definition holds (k : Z) (v : StoredMessage) (n : nat) (s : StoredMessages) : Prop :=
  wf s ∧
  (current s !! k = Some v ∨
   (current s !! k = None ∧ other s !! k = Some v ∧ size (current s) ≤ n)).

(** The number of rotations performed by a sequence of [add] calls. *)
Fixpoint rotations (l : list (Z * StoredMessage)) (s : StoredMessages) : nat :=
  match l with
  | [] => 0
  | kv :: l' => (if over_threshold s then 1 else 0) + rotations l' (add kv.1 kv.2 s)
  end.


(** The [add] calls that one turn of the recording loop, for the result
    [r], performs on the cache of the group at position [i]. *)
Definition adds_at (messageId messageAuthor : Z) (o : nat)
    (results : list (Z * nat)) (r : Z * nat) (i : nat)
    : list (Z * StoredMessage) :=
  (if decide (i = r.2) then
     ((λ other : Z * nat, (other.1, {| id := r.1; author := messageAuthor |}))
        <$> others results r.2)
     ++ [(messageId, {| id := r.1; author := messageAuthor |})]
   else [])
  ++ (if decide (i = o) then [(r.1, {| id := messageId; author := messageAuthor |})]
      else []).

(** ** The rewriting of a chain, in the words of the specification *)

(** The quoted messages of a chain that [cache] can translate, in chain
    order; the last one is the quote of the outbound message. *)
Definition resolved_quotes (cache : StoredMessages) (chain : list MessageType)
    : list StoredMessage :=
  omap (λ x, match x with Quote i => translate i cache | _ => None end) chain.

Definition spec_quote (cache : StoredMessages) (chain : list MessageType)
    : option StoredMessage :=
  last (resolved_quotes cache chain).

(** No quote segment of the chain is translated by [cache]. *)
Definition unresolved (cache : StoredMessages) (chain : list MessageType) : Prop :=
  ∀ i, Quote i ∈ chain → translate i cache = None.

Definition drop_quotes (chain : list MessageType) : list MessageType :=
  filter (λ x, is_quote x = false) chain.

Definition drop_at_me (qq : Z) (chain : list MessageType) : list MessageType :=
  filter (λ x, is_at_me qq x = false) chain.

(** The first mention of the relay's own account is kept, the later ones
    are discarded. *)
Fixpoint first_at_me_only (qq : Z) (chain : list MessageType) : list MessageType :=
  match chain with
  | [] => []
  | x :: rest =>
    if is_at_me qq x then x :: drop_at_me qq rest else x :: first_at_me_only qq rest
  end.

(** Self-mention suppression as the specification words it: at most one
    self-mention is kept when a quote was resolved, none otherwise. *)
Definition spec_kept (qq : Z) (quote : option StoredMessage)
    (chain : list MessageType) : list MessageType :=
  match quote with
  | Some _ => first_at_me_only qq (drop_quotes chain)
  | None => drop_at_me qq (drop_quotes chain)
  end.

(** The configured groups other than the destination (position [t]) and
    the source (position [o]). *)
Definition other_groups (groups : list Group) (t o : nat) : list Group :=
  (filter (λ ig, ig.1 ≠ t ∧ ig.1 ≠ o) (imap pair groups)).*2.

(** The mention rewrite as the specification words it, for a mention of
    [target]: [retarget] gives the user a self-mention stands for. *)
Definition spec_map_segment (qq : Z) (retarget : option StoredMessage → Z)
    (groups : list Group) (t o : nat) (dest og : Group)
    (quote : option StoredMessage) (x : MessageType) : MessageType :=
  match x with
  | At target display =>
    let user := if bool_decide (target = qq) then retarget quote else target in
    if bool_decide (author <$> quote = Some user)
       && bool_decide (user ∈ dom (members dest))
    then At user display
    else Plain ("@" +:+
           search_name user
             ([members dest; members og] ++ (members <$> other_groups groups t o))
             display)
  | _ => x
  end.

(** "Its target is replaced with the quoted message's original author." *)
Definition quoted_author (qq : Z) (quote : option StoredMessage) : Z :=
  match quote with Some q => author q | None => qq end.

(** Concrete insertions: the keys 1 .. n, each mapped to itself. *)
Definition entries (n : nat) : list (Z * StoredMessage) :=
  (λ i, (Z.of_nat i, {| id := Z.of_nat i; author := 1 |})) <$> seq 1 n.

(** The keys a + 1 .. a + n, each mapped to itself. *)
Definition entries_from (a n : nat) : list (Z * StoredMessage) :=
  (λ i, (Z.of_nat i, {| id := Z.of_nat i; author := 1 |})) <$> seq (S a) n.

(** ** A configuration of three groups, for the concrete runs *)

Module Example.

Definition bot : Z := 100.

Definition group_of (n : Z) (ms : list (Z * string)) (s : StoredMessages) : Group :=
  {| group := n; members := list_to_map ms; stored := s |}.

(** Groups 1, 2 and 3; user 1 ("X") posts in group 1. *)
Definition groupA := group_of 1 [(1, "X"); (100, "bot")]%Z new_StoredMessages.
Definition groupB := group_of 2 [(2, "Y"); (100, "bot")]%Z new_StoredMessages.
Definition groupC := group_of 3 [(1, "X in C"); (3, "W")]%Z new_StoredMessages.
Definition groups0 : list Group := [groupA; groupB; groupC].

(** Every send succeeds; the copy sent to group g gets the id 10 g. *)
Definition send_ok (n : nat) (c : SendCall) : SendResult := Sent (call_group c * 10)%Z.

(** Every send succeeds; the copy sent to group g gets the id 10 g + 1. *)
Definition send_next (n : nat) (c : SendCall) : SendResult :=
  Sent (call_group c * 10 + 1)%Z.

(** The send to group 2 rejects with an error that the [catch] block can
    log. *)
Definition send_fail_B (n : nat) (c : SendCall) : SendResult :=
  if bool_decide (call_group c = 2%Z) then Rejected (RejectValue true)
  else Sent (call_group c * 10)%Z.

(** The send to group 2 rejects with [undefined]. *)
Definition send_undefined_B (n : nat) (c : SendCall) : SendResult :=
  if bool_decide (call_group c = 2%Z) then Rejected RejectUndefined
  else Sent (call_group c * 10)%Z.

Definition hi : GroupMessage :=
  {| sender_group := 1; sender_id := 1; source := (10, 0)%Z; body := [Plain "hi"] |}.

(** The groups after "hi" was relayed to groups 2 (as 20) and 3 (as 30). *)
Definition groups1 : list Group := (onGroupMessage bot send_ok groups0 hi).1.

Definition groupA1 : Group := default groupA (groups1 !! 0).
Definition groupB1 : Group := default groupB (groups1 !! 1).
Definition groupC1 : Group := default groupC (groups1 !! 2).

(** A reply to "hi", posted in group 1 by user 2. *)
Definition reply : GroupMessage :=
  {| sender_group := 1; sender_id := 2; source := (11, 0)%Z;
     body := [Quote 10; At 100 "bot"; Plain "re"; At 100 "bot"; At 3 "w"] |}.

(** A message that mentions the relay's account without quoting. *)
Definition ping : GroupMessage :=
  {| sender_group := 1; sender_id := 1; source := (12, 0)%Z;
     body := [At 100 "bot"; Plain "hi"] |}.

(** A destination whose cache translates 10 to a message written by the
    user with id 0. *)
Definition groupZ : Group :=
  group_of 2 [(0, "zero"); (100, "bot")]%Z
    (add 10 {| id := 20; author := 0 |} new_StoredMessages).

End Example.

(** ** Further notions: the fan-out *)

(** No [catch] block of the fan-out throws: every send that rejects does
    so with a value that the block can log. *)
Definition fan_out_completes (qq : Z) (api : nat → SendCall → SendResult)
    (groups : list Group) (msg : GroupMessage) : Prop :=
  ∀ n tc e, fan_out_calls qq groups msg !! n = Some tc →
    api n tc.2 = Rejected e → catch_throws e = false.

(** ** Further notions: the history of a cache *)

(** [latest l k v]: in the sequence of insertions [l], the last one for
    the key [k] carries the value [v]. *)
Definition latest (l : list (Z * StoredMessage)) (k : Z) (v : StoredMessage) : Prop :=
  ∃ l1 l2, l = l1 ++ (k, v) :: l2 ∧ k ∉ l2.*1.

(** Every entry of the cache is the latest insertion for its key; an entry
    of the older generation only when the current one has none. *)
Definition up_to_date (l : list (Z * StoredMessage)) (s : StoredMessages) : Prop :=
  wf s ∧
  (∀ k v, current s !! k = Some v → latest l k v) ∧
  (∀ k v, current s !! k = None → other s !! k = Some v → latest l k v).

(** ** Further notions: segments *)

Definition is_at (x : MessageType) : bool :=
  match x with At _ _ => true | _ => false end.

(** ** Start-up and a run of the relay *)

(** What [app] reads of a [Member] of [mirai.api.memberList]. *)
Record Member := { member_id : Z; memberName : string }.

(** [new Map(entries)]: the entries are set in order, a later entry for a
    key replaces an earlier one. *)
Definition new_Map (entries : list (Z * string)) : gmap Z string :=
  foldl (λ m kv, <[kv.1 := kv.2]> m) ∅ entries.

(** [groupNumbers.map(group => ({ group, members: new Map(), stored: new
    StoredMessages(), ... }))] *)
Definition make_groups (groupNumbers : list Z) : list Group :=
  (λ n, {| group := n; members := ∅; stored := new_StoredMessages |}) <$> groupNumbers.

(** [updateMemberList], given what [mirai.api.memberList(this.group)]
    answered: the member list, or nothing when the call throws. *)
Definition updateMemberList (answer : option (list Member)) (g : Group) : option Group :=
  match answer with
  | Some list =>
    Some {| group := group g;
            members := new_Map ((λ m, (member_id m, memberName m)) <$> list);
            stored := stored g |}
  | None => None
  end.

(** [await Promise.all(groups.map(g => g.updateMemberList()))]: the groups
    the handlers are installed with, or nothing when a member list fails to
    load.  [memberList n group] is the answer to the n-th call. *)
Definition start_groups (memberList : nat → Z → option (list Member))
    (groupNumbers : list Z) : option (list Group) :=
  mapM (λ x, x)
    (imap (λ n g, updateMemberList (memberList n (group g)) g)
          (make_groups groupNumbers)).

(** A run of the handler over a sequence of inbound messages, each with
    the answers of the platform to its sends; the handler holds the mutex
    for a whole fan-out, so the fan-outs follow one another. *)
Definition run (qq : Z) (events : list ((nat → SendCall → SendResult) * GroupMessage))
    (groups : list Group) : list Group :=
  foldl (λ gs e, (onGroupMessage qq e.1 gs e.2).1) groups events.

(** The [add] calls that one run of the handler makes on the cache of the
    group at position [i], in order. *)
Definition handler_adds (qq : Z) (api : nat → SendCall → SendResult)
    (groups : list Group) (msg : GroupMessage) (i : nat)
    : list (Z * StoredMessage) :=
  match list_find (λ g, group g = sender_group msg) groups with
  | Some (o, _) =>
    fan_out_results qq api groups msg ≫=
      λ r, adds_at (messageId msg) (sender_id msg) o
             (fan_out_results qq api groups msg) r i
  | None => []
  end.

(** The [add] calls that a run of the relay makes on the cache of the
    group at position [i], in order. *)
Fixpoint run_adds (qq : Z) (events : list ((nat → SendCall → SendResult) * GroupMessage))
    (groups : list Group) (i : nat) : list (Z * StoredMessage) :=
  match events with
  | [] => []
  | e :: rest =>
    handler_adds qq e.1 groups e.2 i
    ++ run_adds qq rest (onGroupMessage qq e.1 groups e.2).1 i
  end.

(** ** The configuration *)

Module Config.

(** The values [JSON.parse] gives, and [undefined] for a property that is
    not there.  An object is the map of its own properties. *)
#[warnings="-register-all"]
Inductive value :=
  | Undefined
  | Null
  | Bool (b : bool)
  | Number (n : Z)
  | Str (s : string)
  | Array (l : list value)
  | Object (m : gmap string value).

(** What a call can throw: the [TypeError] of the runtime, an [Error]
    made with a message, or whatever reading and parsing the file throws. *)
Inductive error :=
  | TypeError
  | Error (message : string)
  | LoadError (name : string).

Inductive result (A : Type) :=
  | Return (a : A)
  | Throw (e : error).
Arguments Return {A} a.
Arguments Throw {A} e.

Definition typeof (x : value) : string :=
  match x with
  | Undefined => "undefined"
  | Null => "object"
  | Bool _ => "boolean"
  | Number _ => "number"
  | Str _ => "string"
  | Array _ => "object"
  | Object _ => "object"
  end.

(** [(e as any)[k]] for a key that names no inherited property and no
    index or [length] (as the keys of [configDefinition]): the own property
    of an object, [undefined] where there is none, a [TypeError] on [null]
    and [undefined]. *)
Definition get (e : value) (k : string) : result value :=
  match e with
  | Undefined | Null => Throw TypeError
  | Object m => Return (default Undefined (m !! k))
  | _ => Return Undefined
  end.

(** [keys.every(k => d[k](e[k]))]: the keys in the order of the
    definition, stopping at the first check that fails. *)
Fixpoint every (d : list (string * (value → bool))) (e : value) : result bool :=
  match d with
  | [] => Return true
  | (k, check) :: rest =>
    match get e k with
    | Throw err => Throw err
    | Return x => if check x then every rest e else Return false
    end
  end.

(** [getTypeChecker(d)]: [typeof e === 'object' && keys.every(...)] *)
Definition getTypeChecker (d : list (string * (value → bool))) (e : value)
    : result bool :=
  if bool_decide (typeof e = "object") then every d e else Return false.

Definition is_number (x : value) : bool := bool_decide (typeof x = "number").

(** [Array.isArray(x) && x.every(e => typeof e === 'number')] *)
Definition is_number_array (x : value) : bool :=
  match x with
  | Array l => forallb is_number l
  | _ => false
  end.

Definition configDefinition : list (string * (value → bool)) :=
  [ ("qq", is_number);
    ("mahConfig", λ x, bool_decide (typeof x = "object"));
    ("groups", is_number_array) ].

(** [parseConfig]: [config] is [args.config], [load path] stands for
    [JSON.parse(readFileSync(path).toString('utf-8'))]. *)
Definition parseConfig (config : option string) (load : string → result value)
    : result value :=
  match config with
  | None => Throw (Error "missing config path")
  | Some path =>
    match load path with
    | Throw err => Throw err
    | Return parsed =>
      match getTypeChecker configDefinition parsed with
      | Throw err => Throw err
      | Return true => Return parsed
      | Return false => Throw (Error "Invalid config")
      end
    end
  end.

(** The numbers of an array of numbers. *)
Definition numbers (l : list value) : list Z :=
  omap (λ x, match x with Number n => Some n | _ => None end) l.

End Config.

(** ** Facts about the cache *)

Section CacheFacts.

Implicit Types (s : StoredMessages) (k : Z) (v : StoredMessage).

Lemma wf_new : wf new_StoredMessages.
Proof. split; [done | by left]. Qed.

(** What one [add] does to the two generations of a well-formed cache. *)
Lemma add_view k v s :
  wf s →
  wf (add k v s) ∧
  if over_threshold s
  then current (add k v s) = {[k := v]} ∧ other (add k v s) = current s
  else current (add k v s) = <[k := v]> (current s) ∧ other (add k v s) = other s.
Proof.
  intros [Hlen Hidx]. unfold add.
  destruct (over_threshold s) eqn:E; clear E;
    destruct s as [[|d0 [|d1 [|? ?]]] ci oi]; simpl in *; try discriminate;
    destruct Hidx as [[-> ->] | [-> ->]];
    (split; [split; simpl; eauto |]); by rewrite ?insert_empty.
Qed.

Lemma wf_add k v s : wf s → wf (add k v s).
Proof. intros H. by destruct (add_view k v s H). Qed.

Lemma wf_add_all l s : wf s → wf (add_all l s).
Proof.
  revert s. induction l as [|[k v] l IH]; intros s H; [done |].
  apply IH. by apply wf_add.
Qed.

Lemma add_all_app l1 l2 s : add_all (l1 ++ l2) s = add_all l2 (add_all l1 s).
Proof. apply foldl_app. Qed.

Lemma over_threshold_false s : over_threshold s = false → size (current s) ≤ threshold.
Proof. unfold over_threshold. intros H%bool_decide_eq_false. lia. Qed.

Lemma over_threshold_true s : over_threshold s = true → threshold < size (current s).
Proof. unfold over_threshold. by intros H%bool_decide_eq_true. Qed.

Lemma size_insert_le k v (m : gmap Z StoredMessage) : size (<[k := v]> m) ≤ S (size m).
Proof.
  destruct (m !! k) eqn:E.
  - erewrite map_size_insert_Some by done. lia.
  - rewrite map_size_insert_None by done. lia.
Qed.

Lemma bounded_new : bounded new_StoredMessages.
Proof. split; [apply wf_new |]. vm_compute. lia. Qed.

Lemma bounded_add k v s : bounded s → bounded (add k v s).
Proof.
  intros (Hwf & Hc & Ho). destruct (add_view k v s Hwf) as [Hwf' Hv].
  split; [done |]. destruct (over_threshold s) eqn:E; destruct Hv as [-> ->].
  - rewrite map_size_singleton. split; [lia | done].
  - apply over_threshold_false in E. pose proof (size_insert_le k v (current s)).
    split; [lia | done].
Qed.

Lemma bounded_add_all l s : bounded s → bounded (add_all l s).
Proof.
  revert s. induction l as [|[k v] l IH]; intros s H; [done |].
  apply IH. by apply bounded_add.
Qed.

Lemma bounded_generations s :
  bounded s → Forall (λ m, size m ≤ S threshold) (data s).
Proof.
  intros ([Hlen Hidx] & Hc & Ho). unfold current, other, generation in *.
  destruct s as [[|d0 [|d1 [|? ?]]] ci oi]; simpl in *; try discriminate.
  destruct Hidx as [[-> ->] | [-> ->]]; simpl in *;
    repeat (apply Forall_cons_2; [done |]); apply Forall_nil_2.
Qed.

Lemma size_reachable s : size (reachable s) ≤ size (current s) + size (other s).
Proof.
  unfold reachable. rewrite size_union_alt, !size_dom.
  pose proof (subseteq_size (dom (other s) ∖ dom (current s)) (dom (other s))) as H.
  rewrite size_dom in H. etrans; [apply Nat.add_le_mono_l, H; set_solver | done].
Qed.

Lemma elem_of_reachable k s : k ∈ reachable s ↔ is_Some (translate k s).
Proof.
  unfold reachable, translate. rewrite elem_of_union, !elem_of_dom.
  destruct (current s !! k); naive_solver.
Qed.

Lemma NoDup_length_le_size (ks : list Z) (X : gset Z) :
  NoDup ks → (∀ k, k ∈ ks → k ∈ X) → length ks ≤ size X.
Proof.
  intros Hnd Hin. rewrite <- (size_list_to_set (C := gset Z) ks Hnd).
  apply subseteq_size. set_solver.
Qed.

Lemma translate_add_eq k v s : wf s → translate k (add k v s) = Some v.
Proof.
  intros H. destruct (add_view k v s H) as [_ Hv]. unfold translate.
  destruct (over_threshold s); destruct Hv as [-> _].
  - by rewrite lookup_singleton_eq.
  - by rewrite lookup_insert_eq.
Qed.

(** [add] never makes a key other than its own reachable. *)
Lemma reachable_add_ne k k' v s :
  wf s → k ≠ k' → k' ∉ reachable s → k' ∉ reachable (add k v s).
Proof.
  intros H Hne Hk'. destruct (add_view k v s H) as [_ Hv]. unfold reachable in *.
  destruct (over_threshold s); destruct Hv as [-> ->].
  - rewrite dom_singleton_L. set_solver.
  - rewrite dom_insert_L. set_solver.
Qed.

Lemma holds_translate k v n s : holds k v n s → translate k s = Some v.
Proof. intros [_ [H | (H1 & H2 & _)]]; unfold translate; by rewrite ?H, ?H1. Qed.

Lemma holds_add k v n k' s :
  holds k v n s → n ≤ threshold → holds k v (S n) (add k' v s).
Proof.
  intros [Hwf H] Hn. destruct (add_view k' v s Hwf) as [Hwf' Hv].
  split; [done |]. destruct (decide (k' = k)) as [-> | Hne].
  { left. destruct (over_threshold s); destruct Hv as [-> _];
      by rewrite ?lookup_singleton_eq, ?lookup_insert_eq. }
  destruct (over_threshold s) eqn:E; destruct Hv as [-> ->].
  - destruct H as [H | (_ & _ & Hsz)].
    + right. rewrite lookup_singleton_ne by done.
      rewrite map_size_singleton. split_and!; [done | done | lia].
    + apply over_threshold_true in E. lia.
  - rewrite lookup_insert_ne by done. destruct H as [H | (H1 & H2 & Hsz)]; [by left |].
    right. pose proof (size_insert_le k' v (current s)). split_and!; [done | done | lia].
Qed.

Lemma holds_add_all k v l : ∀ n s,
  holds k v n s → Forall (λ kv, kv.2 = v) l → n + length l ≤ S threshold →
  holds k v (n + length l) (add_all l s).
Proof.
  induction l as [|[k' v'] l IH]; intros n s H Hv Hn; simpl in *.
  - by rewrite Nat.add_0_r.
  - apply Forall_cons in Hv as [Hv' Hv]. simpl in Hv'. subst v'.
    replace (n + S (length l)) with (S n + length l) by lia.
    apply IH; [apply holds_add; [done | lia] | done | lia].
Qed.

(** An entry is still translated after up to [threshold + 1] further
    insertions that carry the same value. *)
Lemma translate_add_all_survives k v l s :
  wf s → Forall (λ kv, kv.2 = v) l → length l ≤ S threshold →
  translate k (add_all l (add k v s)) = Some v.
Proof.
  intros Hwf Hv Hlen. apply (holds_translate k v (0 + length l)).
  apply holds_add_all; [| done | lia].
  split; [by apply wf_add |]. left.
  destruct (add_view k v s Hwf) as [_ H].
  destruct (over_threshold s); destruct H as [-> _];
    by rewrite ?lookup_singleton_eq, ?lookup_insert_eq.
Qed.

Lemma translate_add_all_elem k v l s :
  wf s → (k, v) ∈ l → Forall (λ kv, kv.2 = v) l → length l ≤ S (S threshold) →
  translate k (add_all l s) = Some v.
Proof.
  intros Hwf Hin Hv Hlen.
  apply list_elem_of_split in Hin as (l1 & l2 & ->).
  rewrite add_all_app. simpl.
  rewrite length_app in Hlen. simpl in Hlen.
  apply Forall_app in Hv as [_ Hv]. apply Forall_cons in Hv as [_ Hv].
  apply translate_add_all_survives; [by apply wf_add_all | done | lia].
Qed.

Lemma reachable_add_all_ne k l s :
  wf s → k ∉ l.*1 → k ∉ reachable s → k ∉ reachable (add_all l s).
Proof.
  revert s. induction l as [|[k' v'] l IH]; intros s Hwf Hk Hr; [done |].
  simpl in *. apply not_elem_of_cons in Hk as [Hne Hk].
  apply IH; [by apply wf_add | done |]. by apply reachable_add_ne.
Qed.

Lemma fill_fresh l : ∀ s,
  wf s → NoDup l.*1 → (∀ k, k ∈ l.*1 → current s !! k = None) →
  size (current s) + length l ≤ S threshold →
  rotations l s = 0 ∧
  other (add_all l s) = other s ∧
  size (current (add_all l s)) = size (current s) + length l ∧
  (∀ k v, (k, v) ∈ l → current (add_all l s) !! k = Some v) ∧
  (∀ k, k ∉ l.*1 → current (add_all l s) !! k = current s !! k).
Proof.
  induction l as [|[k v] l IH]; intros s Hwf Hnd Hfresh Hsz; simpl in *.
  { split_and!; [done | done | lia | | done]. intros k v H. by apply elem_of_nil in H. }
  apply NoDup_cons in Hnd as [Hk Hnd].
  assert (over_threshold s = false) as E.
  { unfold over_threshold. apply bool_decide_eq_false. lia. }
  destruct (add_view k v s Hwf) as [Hwf' Hv]. rewrite E in Hv. destruct Hv as [Hc Ho].
  assert (size (current (add k v s)) = S (size (current s))) as Hsz'.
  { rewrite Hc. apply map_size_insert_None, Hfresh. left. }
  destruct (IH (add k v s)) as (Hr & Ho' & Hs' & Hl' & Hn'); [done | done | | lia |].
  { intros k' Hk'. rewrite Hc, lookup_insert_ne by (intros ->; done).
    apply Hfresh. by right. }
  rewrite E. split_and!; [done | congruence | lia | |].
  - intros k' v' [[= -> ->] | Hin]%elem_of_cons; [| by apply Hl'].
    rewrite Hn' by done. by rewrite Hc, lookup_insert_eq.
  - intros k' [Hne Hk']%not_elem_of_cons.
    rewrite Hn' by done. by rewrite Hc, lookup_insert_ne.
Qed.

Lemma rotations_none_other l : ∀ s,
  wf s → rotations l s = 0 → other (add_all l s) = other s.
Proof.
  induction l as [|[k v] l IH]; intros s Hwf Hr; simpl in *; [done |].
  destruct (add_view k v s Hwf) as [Hwf' Hv].
  destruct (over_threshold s); [lia |]. destruct Hv as [_ <-]. by apply IH.
Qed.

End CacheFacts.

Section CacheTheorems.

Implicit Types (s : StoredMessages) (k : Z) (v : StoredMessage).

Lemma NoDup_entries n : NoDup (entries n).*1.
Proof.
  unfold entries. rewrite <- list_fmap_compose.
  apply (NoDup_fmap_2 (λ i : nat, Z.of_nat i)), NoDup_seq.
Qed.

(** C5, as stated, fails: after 201 insertions of distinct keys into a new
    cache the current generation holds 201 entries, more than the
    threshold, and no rotation has taken place. *)
Lemma C5_counterexample :
  let s := add_all (entries 201) new_StoredMessages in
  size (current s) = 201 ∧ rotations (entries 201) new_StoredMessages = 0 ∧
  ¬ size (current s) ≤ threshold.
Proof. vm_compute. split_and!; [done | done | lia]. Qed.

(** C5, amended: along every sequence of [add] calls on a new cache the
    current generation never holds more than threshold + 1 = 201 entries;
    an [add] that finds the current generation over the threshold (at 201
    entries) first rotates, so that the entry lands alone in the cleared
    older generation and the former current one becomes the older one; any
    other [add] inserts into the current generation. *)
Theorem C5_current_size_bound (l : list (Z * StoredMessage)) k v :
  let s := add_all l new_StoredMessages in
  size (current s) ≤ 201 ∧
  over_threshold s = bool_decide (200 < size (current s)) ∧
  if over_threshold s
  then current (add k v s) = {[k := v]} ∧ other (add k v s) = current s
  else current (add k v s) = <[k := v]> (current s) ∧ other (add k v s) = other s.
Proof.
  intros s.
  destruct (bounded_add_all l new_StoredMessages bounded_new) as (Hwf & Hc & _).
  split_and!; [exact Hc | done |]. by destruct (add_view k v s Hwf).
Qed.

Lemma no_rotation_current l : ∀ s k,
  wf s → rotations l s = 0 → k ∉ l.*1 →
  current (add_all l s) !! k = current s !! k.
Proof.
  induction l as [|[k1 v1] l IH]; intros s k Hwf Hr Hk; [done |].
  simpl in *. apply not_elem_of_cons in Hk as [Hne Hk].
  destruct (add_view k1 v1 s Hwf) as [Hwf' Hv].
  destruct (over_threshold s); [lia |]. destruct Hv as [Hc _].
  rewrite IH by done. by rewrite Hc, lookup_insert_ne.
Qed.

(** C6: from a new cache, threshold + 1 insertions of distinct keys cause
    no rotation.  The next [add] rotates: its entry is the only one of the
    new current generation, the generation that was current is now the
    other one, and [translate] answers every earlier key with the value it
    was inserted with, through that other generation.  This stays so across
    any further insertions that do not rotate, for every earlier key not
    inserted again.  At the next rotation the generation that holds the
    earlier keys is cleared and becomes the current one: it then holds the
    new entry only and [translate] answers none of the earlier keys that
    were not inserted again. *)
Theorem C6_rotation (l : list (Z * StoredMessage)) k' v' :
  NoDup l.*1 → length l = S threshold →
  let s := add_all l new_StoredMessages in
  let s' := add k' v' s in
  rotations l new_StoredMessages = 0 ∧
  over_threshold s = true ∧
  currentIndex s' = otherIndex s ∧
  current s' = {[k' := v']} ∧
  other s' = current s ∧
  translate k' s' = Some v' ∧
  (∀ k v, (k, v) ∈ l →
     other s' !! k = Some v ∧ (k ≠ k' → translate k s' = Some v)) ∧
  (∀ l' k v, rotations l' s' = 0 → (k, v) ∈ l →
     other (add_all l' s') !! k = Some v ∧
     is_Some (translate k (add_all l' s')) ∧
     (k ∉ k' :: l'.*1 → translate k (add_all l' s') = Some v)) ∧
  (∀ l' k2 v2 k v,
     rotations l' s' = 0 → over_threshold (add_all l' s') = true →
     (k, v) ∈ l → k ∉ k' :: l'.*1 → k ≠ k2 →
     current (add k2 v2 (add_all l' s')) = {[k2 := v2]} ∧
     translate k (add k2 v2 (add_all l' s')) = None).
Proof.
  intros Hnd Hlen s s'.
  destruct (fill_fresh l new_StoredMessages wf_new Hnd) as (Hr & Ho & Hsz & Hl & _).
  { intros k _. reflexivity. }
  { change (size (current new_StoredMessages)) with 0. lia. }
  change (size (current new_StoredMessages)) with 0 in Hsz. fold s in Ho, Hsz, Hl.
  assert (wf s) as Hwf by apply wf_add_all, wf_new.
  assert (over_threshold s = true) as E.
  { unfold over_threshold. apply bool_decide_eq_true. lia. }
  destruct (add_view k' v' s Hwf) as [Hwf' Hv]. fold s' in Hwf', Hv.
  rewrite E in Hv. destruct Hv as [Hc' Ho'].
  assert (∀ l' k, rotations l' s' = 0 → k ∉ k' :: l'.*1 →
            current (add_all l' s') !! k = None) as Hcur.
  { intros l' k Hr' [Hne Hk]%not_elem_of_cons.
    rewrite no_rotation_current by done. by rewrite Hc', lookup_singleton_ne. }
  split_and!; [done | done | | done | done | | |  |].
  - unfold s', add. by rewrite E.
  - unfold translate. by rewrite Hc', lookup_singleton_eq.
  - intros k v Hin. rewrite Ho'. split; [by apply Hl |].
    intros Hne. unfold translate.
    rewrite Hc', lookup_singleton_ne, Ho' by done. by apply Hl.
  - intros l' k v Hr' Hin.
    pose proof (rotations_none_other l' s' Hwf' Hr') as Hoth.
    assert (other (add_all l' s') !! k = Some v) as Hk
      by (rewrite Hoth, Ho'; by apply Hl).
    split_and!; [done | |].
    + unfold translate. destruct (current (add_all l' s') !! k); [done |].
      by rewrite Hk.
    + intros Hfresh. unfold translate. by rewrite (Hcur l' k Hr' Hfresh), Hk.
  - intros l' k2 v2 k v Hr' Hover Hin Hfresh Hne.
    assert (wf (add_all l' s')) as Hwf2 by by apply wf_add_all.
    destruct (add_view k2 v2 (add_all l' s') Hwf2) as [_ Hv2].
    rewrite Hover in Hv2. destruct Hv2 as [Hc2 Ho2]. split; [done |].
    unfold translate. rewrite Hc2, lookup_singleton_ne, Ho2 by done.
    by apply Hcur.
Qed.

Lemma C6_rotation_witness :
  let l := entries 201 in
  let s' := add 500 {| id := 500; author := 2 |} (add_all l new_StoredMessages) in
  let l' := entries_from 600 200 in
  current s' = {[ 500%Z := {| id := 500; author := 2 |} ]} ∧
  (∀ k v, (k, v) ∈ l → 500%Z ≠ k → translate k s' = Some v) ∧
  translate 7 (add_all l' s') = Some {| id := 7; author := 1 |} ∧
  translate 7 (add 900 {| id := 900; author := 3 |} (add_all l' s')) = None.
Proof.
  intros l s' l'.
  assert (NoDup l.*1) as Hnd by apply NoDup_entries.
  assert (length l = S threshold) as Hlen by (vm_compute; reflexivity).
  destruct (C6_rotation l 500 {| id := 500; author := 2 |} Hnd Hlen)
    as (_ & _ & _ & Hc & _ & _ & Hk & Hl' & Hnext).
  assert ((7%Z, {| id := 7; author := 1 |}) ∈ l) as H7.
  { apply (bool_decide_unpack _). vm_compute. exact I. }
  assert (7%Z ∉ 500%Z :: l'.*1) as Hfresh.
  { apply (bool_decide_unpack _). vm_compute. exact I. }
  split_and!.
  - exact Hc.
  - intros k v Hin Hne. apply (Hk k v Hin). congruence.
  - apply (Hl' l' 7%Z _ ltac:(vm_compute; reflexivity) H7). exact Hfresh.
  - apply (Hnext l' 900%Z _ 7%Z _ ltac:(vm_compute; reflexivity)
             ltac:(vm_compute; reflexivity) H7 Hfresh).
    discriminate.
Defined.

(** C7, as stated, fails: after 402 insertions of distinct keys, all 402
    keys are answered by [translate], more than 2 × threshold = 400. *)
Lemma C7_counterexample :
  let s := add_all (entries 402) new_StoredMessages in
  let ks := (entries 402).*1 in
  NoDup ks ∧ Forall (λ k, is_Some (translate k s)) ks ∧ ¬ length ks ≤ 2 * threshold.
Proof.
  intros s ks. split_and!.
  - apply NoDup_entries.
  - apply (bool_decide_unpack _). vm_compute. exact I.
  - vm_compute. lia.
Qed.

(** C7, amended: along every sequence of [add] calls on a new cache, any
    set of distinct keys that [translate] answers at the same moment has at
    most 2 × (threshold + 1) = 402 elements. *)
Theorem C7_reachable_bound (l : list (Z * StoredMessage)) (ks : list Z) :
  NoDup ks →
  Forall (λ k, is_Some (translate k (add_all l new_StoredMessages))) ks →
  length ks ≤ 402.
Proof.
  intros Hnd Hks. set (s := add_all l new_StoredMessages) in *.
  destruct (bounded_add_all l new_StoredMessages bounded_new) as (_ & Hc & Ho).
  fold s in Hc, Ho. pose proof (size_reachable s) as Hsz.
  pose proof (NoDup_length_le_size ks (reachable s) Hnd) as Hle.
  unfold threshold in *. etrans; [apply Hle | lia].
  intros k Hk. apply elem_of_reachable. by eapply Forall_forall in Hks.
Qed.

Lemma C7_reachable_bound_witness :
  length ((entries 5).*1) ≤ 402.
Proof.
  apply (C7_reachable_bound (entries 5)).
  - apply NoDup_entries.
  - apply (bool_decide_unpack _). vm_compute. exact I.
Defined.

(** C10: along every sequence of [add] calls on a new cache each of the two
    generation maps holds at most threshold + 1 = 201 entries, the
    generations change roles in an [add] exactly when the current one is
    already over the threshold at its start, and [translate] answers for at
    most 2 × 201 = 402 keys. *)
Theorem C10_generation_bounds (l : list (Z * StoredMessage)) k v :
  let s := add_all l new_StoredMessages in
  threshold = 200 ∧
  Forall (λ m, size m ≤ 201) (data s) ∧
  currentIndex (add k v s) =
    (if bool_decide (threshold < size (current s)) then otherIndex s else currentIndex s) ∧
  size (reachable s) ≤ 402.
Proof.
  intros s.
  pose proof (bounded_add_all l new_StoredMessages bounded_new) as Hb. fold s in Hb.
  split_and!; [done | by apply bounded_generations | |].
  - unfold add, over_threshold. by destruct (bool_decide _).
  - destruct Hb as (_ & Hc & Ho). pose proof (size_reachable s). unfold threshold in *. lia.
Qed.

End CacheTheorems.

Section RewriterFacts.

Variable qq : Z.
Implicit Types (cache : StoredMessages) (chain : list MessageType)
  (quote : option StoredMessage).

Lemma filter_chain_quote cache chain : ∀ quote c,
  (filter_chain qq cache quote c chain).2 =
  match spec_quote cache chain with Some q => Some q | None => quote end.
Proof.
  unfold spec_quote.
  induction chain as [|x chain IH]; intros quote c; [done |].
  destruct x; simpl; try (by rewrite IH).
  - rewrite IH. destruct (translate quote_id cache) as [q|] eqn:E; simpl.
    + rewrite last_cons. by destruct (last (resolved_quotes cache chain)).
    + done.
  - destruct (bool_decide (is_Some quote) && bool_decide (target = qq)); simpl; by rewrite IH.
Qed.

Lemma filter_chain_no_quote cache chain : ∀ quote c x,
  x ∈ (filter_chain qq cache quote c chain).1 → is_quote x = false ∧ x ∈ chain.
Proof.
  induction chain as [|x chain IH]; intros quote c y Hy; simpl in *.
  { by apply elem_of_nil in Hy. }
  destruct x; simpl in *;
    try (apply elem_of_cons in Hy as [-> | Hy];
         [split; [done | left] | apply IH in Hy as [? ?]; split; [done | by right]]).
  - apply IH in Hy as [? ?]. split; [done | by right].
  - destruct (bool_decide (is_Some quote) && bool_decide (target = qq)); simpl in *.
    + destruct (bool_decide (c = 0)).
      * apply elem_of_cons in Hy as [-> | Hy]; [split; [done | left] |].
        apply IH in Hy as [? ?]. split; [done | by right].
      * apply IH in Hy as [? ?]. split; [done | by right].
    + apply elem_of_cons in Hy as [-> | Hy]; [split; [done | left] |].
      apply IH in Hy as [? ?]. split; [done | by right].
Qed.

Lemma unresolved_cons cache x chain :
  unresolved cache (x :: chain) → unresolved cache chain.
Proof. intros H i Hi. apply H. by right. Qed.

(** While no quote is resolved, the filter only removes quote segments. *)
Lemma filter_chain_unresolved_app cache pre rest : ∀ c,
  unresolved cache pre →
  filter_chain qq cache None c (pre ++ rest) =
  (drop_quotes pre ++ (filter_chain qq cache None c rest).1,
   (filter_chain qq cache None c rest).2).
Proof.
  unfold drop_quotes.
  induction pre as [|x pre IH]; intros c H; simpl.
  { by destruct (filter_chain qq cache None c rest). }
  pose proof (unresolved_cons _ _ _ H) as H'.
  destruct x; simpl; rewrite ?filter_cons_True by done; try (by rewrite IH).
  rewrite filter_cons_False by done.
  rewrite (H quote_id) by left. by rewrite IH.
Qed.

Lemma drop_quotes_keep x chain :
  is_quote x = false → drop_quotes (x :: chain) = x :: drop_quotes chain.
Proof. intros H. unfold drop_quotes. by rewrite filter_cons_True. Qed.

Lemma drop_quotes_drop i chain : drop_quotes (Quote i :: chain) = drop_quotes chain.
Proof. unfold drop_quotes. by rewrite filter_cons_False. Qed.

Lemma drop_at_me_keep x chain :
  is_at_me qq x = false → drop_at_me qq (x :: chain) = x :: drop_at_me qq chain.
Proof. intros H. unfold drop_at_me. by rewrite filter_cons_True. Qed.

Lemma drop_at_me_drop x chain :
  is_at_me qq x = true → drop_at_me qq (x :: chain) = drop_at_me qq chain.
Proof. intros H. unfold drop_at_me. rewrite filter_cons_False; [done | by rewrite H]. Qed.

(** Once a quote is resolved, self-mentions are counted. *)
Lemma filter_chain_resolved cache chain : ∀ q c,
  (filter_chain qq cache (Some q) c chain).1 =
  if bool_decide (c = 0) then first_at_me_only qq (drop_quotes chain)
  else drop_at_me qq (drop_quotes chain).
Proof.
  induction chain as [|x chain IH]; intros q c.
  { by destruct (bool_decide (c = 0)). }
  destruct x as [i tm | i | target display | text | type];
    try (rewrite drop_quotes_keep by done; simpl; rewrite IH;
         destruct (bool_decide (c = 0)); simpl; [done |];
         by rewrite drop_at_me_keep by done).
  - rewrite drop_quotes_drop. simpl. destruct (translate i cache); apply IH.
  - rewrite drop_quotes_keep by done. simpl.
    destruct (bool_decide (target = qq)) eqn:E; simpl; rewrite IH.
    + rewrite (bool_decide_eq_false_2 (S c = 0)) by done.
      destruct (bool_decide (c = 0)); simpl; [done |].
      by rewrite drop_at_me_drop by (simpl; by rewrite E).
    + destruct (bool_decide (c = 0)); simpl; [done |].
      by rewrite drop_at_me_keep by (simpl; by rewrite E).
Qed.

Lemma drop_at_me_none chain : filter (λ x, is_at_me qq x = true) (drop_at_me qq chain) = [].
Proof.
  induction chain as [|x chain IH]; [done |].
  destruct (is_at_me qq x) eqn:E.
  - by rewrite drop_at_me_drop.
  - rewrite drop_at_me_keep by done. by rewrite filter_cons_False by (rewrite E; done).
Qed.

Lemma first_at_me_only_count chain :
  length (filter (λ x, is_at_me qq x = true) (first_at_me_only qq chain)) ≤ 1.
Proof.
  induction chain as [|x chain IH]; simpl; [lia |].
  destruct (is_at_me qq x) eqn:E.
  - rewrite filter_cons_True by done. rewrite drop_at_me_none. simpl. lia.
  - by rewrite filter_cons_False by (rewrite E; done).
Qed.

End RewriterFacts.

Section SearchFacts.

Implicit Types (groups : list Group) (target : Z).




Lemma elem_of_imap_pair {A} (l : list A) i x : (i, x) ∈ imap pair l ↔ l !! i = Some x.
Proof.
  rewrite elem_of_lookup_imap. split.
  - by intros (j & y & [= -> ->] & H).
  - intros H. by exists i, x.
Qed.



End SearchFacts.

(** Closes a goal from [H : Quote j ∈ l] for a concrete chain [l] without
    quote segments. *)
Ltac no_quote_in H :=
  exfalso;
  repeat (apply elem_of_cons in H as [H | H]; [discriminate H |]);
  by apply elem_of_nil in H.

Section RewriterTheorems.

Implicit Types (qq : Z) (groups : list Group) (dest : Group)
  (chain : list MessageType) (quote : option StoredMessage).

Lemma elem_of_targets groups fromGroup t dest :
  (t, dest) ∈ targets groups fromGroup ↔ groups !! t = Some dest ∧ group dest ≠ fromGroup.
Proof.
  unfold targets. rewrite list_elem_of_filter, elem_of_imap_pair. simpl. tauto.
Qed.

Lemma process_chain_quote qq groups og dest chain :
  (process_chain qq groups og dest chain).2 = spec_quote (stored dest) chain.
Proof.
  unfold process_chain. simpl. rewrite filter_chain_quote.
  by destruct (spec_quote (stored dest) chain).
Qed.

Lemma map_segment_is_quote qq groups og dest quote x :
  is_quote x = false → is_quote (map_segment qq groups og dest quote x) = false.
Proof.
  destruct x; simpl; try done. intros _.
  by destruct (bool_decide _ || negb _).
Qed.

Lemma process_chain_no_quote qq groups og dest chain x :
  x ∈ (process_chain qq groups og dest chain).1 → is_quote x = false.
Proof.
  unfold process_chain. simpl. intros (y & -> & Hy)%list_elem_of_fmap.
  apply filter_chain_no_quote in Hy as [Hy _]. by apply map_segment_is_quote.
Qed.

(** C1, as stated, fails: a reply posted in group 1 that quotes message 10
    is sent to groups 2 and 3 as a reply to their copies (20 and 30), which
    only the caches of the destinations translate; the cache of the source
    group does not translate 10, so that resolving against it would give
    no quote. *)
Lemma C1_counterexample :
  let source1 := Example.groupA1 in
  let calls :=
    (onGroupMessage Example.bot Example.send_ok Example.groups1 Example.reply).2 in
  (λ c, (call_group c, call_quote c)) <$> calls
    = [(2%Z, Some 20%Z); (3%Z, Some 30%Z)] ∧
  spec_quote (stored source1) (messageChain Example.reply) = None ∧
  ¬ Forall (λ c, call_quote c
                 = id <$> spec_quote (stored source1) (messageChain Example.reply))
      calls.
Proof.
  intros source1 calls. split_and!.
  - vm_compute. reflexivity.
  - vm_compute. reflexivity.
  - apply (bool_decide_unpack _). vm_compute. exact I.
Qed.

(** C1, amended: for every inbound message of a configured group and every
    destination group, the chain that is sent holds no quote segment, and
    the message is sent as a reply to the quote resolved by [translate] on
    the DESTINATION group's cache: the last quote segment that this cache
    translates decides, segments it does not translate are passed over
    silently, and without any translated segment there is no quote. *)
Theorem C1_quote_resolution qq (api : nat → SendCall → SendResult)
    (groups : list Group) (msg : GroupMessage) (t : nat) (dest : Group) :
  is_Some (list_find (λ g, group g = sender_group msg) groups) →
  groups !! t = Some dest → group dest ≠ sender_group msg →
  ∃ call, call ∈ (onGroupMessage qq api groups msg).2 ∧
    (t, call) ∈ fan_out_calls qq groups msg ∧
    call_group call = group dest ∧
    (∀ x, x ∈ call_chain call → is_quote x = false) ∧
    call_quote call = id <$> spec_quote (stored dest) (messageChain msg).
Proof.
  intros [[o og] Hfind] Ht Hne.
  exists (make_call qq groups (Some og) dest (messageChain msg)).
  assert ((t, make_call qq groups (Some og) dest (messageChain msg))
            ∈ fan_out_calls qq groups msg) as Hin.
  { unfold fan_out_calls. rewrite Hfind. apply list_elem_of_fmap.
    exists (t, dest). split; [done |]. by apply elem_of_targets. }
  split_and!; [| done | done | |].
  - unfold onGroupMessage. rewrite Hfind. simpl.
    apply list_elem_of_fmap. by eexists (_, _).
  - intros x. unfold make_call. cbn [call_chain]. apply process_chain_no_quote.
  - unfold make_call. cbn [call_quote]. by rewrite process_chain_quote.
Qed.

Lemma C1_quote_resolution_witness :
  ∃ call, call ∈ (onGroupMessage Example.bot Example.send_ok
                    Example.groups1 Example.reply).2 ∧
    call_group call = 2%Z ∧ call_quote call = Some 20%Z.
Proof.
  destruct (C1_quote_resolution Example.bot Example.send_ok Example.groups1 Example.reply 1
              (Example.groupB1))
    as (call & H1 & _ & H2 & _ & H3).
  - vm_compute. eexists. reflexivity.
  - vm_compute. reflexivity.
  - vm_compute. discriminate.
  - exists call. split; [exact H1 |]. split; [exact H2 | exact H3].
Defined.


(** C3 fails on the code: the destination's cache translates the quoted
    message 10 to {id: 20, author: 0} (what the recording loop stores when
    user 0 posts message 10 and it is relayed as 20), and user 0 is a member
    of the destination group (as "zero").  The self-mention that follows the
    quote should go out as a live mention of that author, as the claim says
    and as the source's comment on reply mentions says; but
    [quote?.author || qq] takes the author id 0 for a missing one, keeps the
    relay's own id, and the mention goes out as the text "@bot". *)
Lemma C3_failing_input :
  let groups := [Example.groupA; Example.groupZ] in
  let chain := [Quote 10; At 100 "bot"] in
  let quote := Some {| id := 20; author := 0 |} in
  process_chain Example.bot groups (Some Example.groupA) Example.groupZ chain
    = ([Plain "@bot"], quote) ∧
  filter_chain Example.bot (stored Example.groupZ) None 0 chain
    = ([At 100 "bot"], quote) ∧
  spec_map_segment Example.bot (quoted_author Example.bot) groups 1 0
    Example.groupZ Example.groupA quote (At 100 "bot") = At 0 "bot" ∧
  map_segment Example.bot groups (Some Example.groupA) Example.groupZ quote
    (At 100 "bot")
  ≠ spec_map_segment Example.bot (quoted_author Example.bot) groups 1 0
      Example.groupZ Example.groupA quote (At 100 "bot").
Proof. vm_compute. split_and!; [done | done | done | discriminate]. Qed.



(** C4, as stated, fails.  A message that mentions the relay's account
    and quotes nothing keeps that mention through the filter, and it is
    sent to group 2 as the text "@bot"; the specification's suppression
    would have discarded it.  And two self-mentions placed before the
    quote segment are both kept, although a quote is resolved. *)
Lemma C4_counterexample :
  (onGroupMessage Example.bot Example.send_ok Example.groups0 Example.ping).2 !! 0
    = Some {| call_chain := [Source 12 0; Plain "@bot"; Plain "hi"];
              call_group := 2; call_quote := None |} ∧
  filter_chain Example.bot (stored Example.groupB) None 0 (messageChain Example.ping)
    = ([Source 12 0; At 100 "bot"; Plain "hi"], None) ∧
  spec_kept Example.bot None (messageChain Example.ping)
    = [Source 12 0; Plain "hi"] ∧
  (filter_chain Example.bot (stored Example.groupB) None 0
     (messageChain Example.ping)).1
    ≠ spec_kept Example.bot None (messageChain Example.ping) ∧
  filter_chain Example.bot (stored Example.groupB1) None 0
      [At 100 "a"; At 100 "b"; Quote 10; At 100 "c"; At 100 "d"]
    = ([At 100 "a"; At 100 "b"; At 100 "c"], Some {| id := 20; author := 1 |}).
Proof. vm_compute. split_and!; [done | done | done | discriminate | done]. Qed.

(** C4, amended: the filter discards a self-mention only when an earlier
    segment of the chain is a quote that the destination's cache
    translates.  In a chain none of whose quote segments is translated,
    only the quote segments are removed: every self-mention is kept and
    goes out as the text "@name" of the relay's own account.  In a chain
    whose first translated quote segment splits it into [pre] and [post],
    every self-mention of [pre] is kept, and of the self-mentions of [post]
    exactly the first is kept and all further ones are discarded. *)
Theorem C4_self_mentions qq groups (og : option Group) dest :
  (∀ chain, unresolved (stored dest) chain →
     process_chain qq groups og dest chain
       = (map_segment qq groups og dest None <$> drop_quotes chain, None)) ∧
  (∀ display,
     map_segment qq groups og dest None (At qq display)
       = Plain ("@" +:+
           search_name qq
             (match og with
              | Some g => [members dest; members g]
              | None => [members dest]
              end ++ (members <$> groups)) display)) ∧
  (∀ pre i q post,
     unresolved (stored dest) pre → translate i (stored dest) = Some q →
     (filter_chain qq (stored dest) None 0 (pre ++ Quote i :: post)).1
       = drop_quotes pre ++ first_at_me_only qq (drop_quotes post) ∧
     length (filter (λ x, is_at_me qq x = true)
               (first_at_me_only qq (drop_quotes post))) ≤ 1).
Proof.
  split_and!.
  - intros chain H. unfold process_chain.
    pose proof (filter_chain_unresolved_app qq (stored dest) chain [] 0 H) as E.
    rewrite app_nil_r in E. rewrite E. simpl. by rewrite app_nil_r.
  - intros display. unfold map_segment.
    rewrite (bool_decide_eq_true_2 (qq = qq)) by done. reflexivity.
  - intros pre i q post Hpre Hi. split; [| apply first_at_me_only_count].
    rewrite filter_chain_unresolved_app by done. simpl. rewrite Hi.
    by rewrite filter_chain_resolved.
Qed.

Lemma C4_self_mentions_witness :
  (filter_chain Example.bot (stored Example.groupB1) None 0
     ([At 100 "a"; At 100 "b"] ++ Quote 10 :: [At 100 "c"; At 100 "d"])).1
  = [At 100 "a"; At 100 "b"; At 100 "c"] ∧
  process_chain Example.bot Example.groups0 (Some Example.groupA) Example.groupB
    (messageChain Example.ping)
  = ([Source 12 0; Plain "@bot"; Plain "hi"], None).
Proof.
  destruct (C4_self_mentions Example.bot Example.groups1 (Some Example.groupA1)
              Example.groupB1) as (_ & _ & H3).
  destruct (C4_self_mentions Example.bot Example.groups0 (Some Example.groupA)
              Example.groupB) as (H1 & _ & _).
  split.
  - destruct (H3 [At 100 "a"; At 100 "b"] 10%Z {| id := 20; author := 1 |}
                [At 100 "c"; At 100 "d"]) as [E _].
    + intros j Hj. no_quote_in Hj.
    + vm_compute. reflexivity.
    + rewrite E. vm_compute. reflexivity.
  - rewrite H1.
    + vm_compute. reflexivity.
    + intros j Hj. no_quote_in Hj.
Defined.

End RewriterTheorems.

(** ** Facts about the fan-out *)

Section FanOutFacts.

Implicit Types (groups : list Group) (results rs : list (Z * nat)).

Lemma update_stored_id g : update_stored (add_all []) g = g.
Proof. by destruct g. Qed.

Lemma update_stored_compose l1 l2 g :
  update_stored (add_all l2) (update_stored (add_all l1) g)
  = update_stored (add_all (l1 ++ l2)) g.
Proof. unfold update_stored. simpl. by rewrite add_all_app. Qed.

Lemma update_stored_add k v g :
  update_stored (add k v) g = update_stored (add_all [(k, v)]) g.
Proof. done. Qed.

Lemma lookup_alter_add groups t k v i :
  alter (update_stored (add k v)) t groups !! i
  = update_stored (add_all (if decide (i = t) then [(k, v)] else [])) <$> groups !! i.
Proof.
  destruct (decide (i = t)) as [-> | Hne].
  - by rewrite list_lookup_alter_eq.
  - rewrite list_lookup_alter_ne by done.
    destruct (groups !! i) as [g|]; [| done]. cbn [fmap option_fmap option_map].
    by rewrite update_stored_id.
Qed.

Lemma lookup_others_loop v t (l : list (Z * nat)) : ∀ groups i,
  foldl (λ gs other, alter (update_stored (add other.1 v)) t gs) groups l !! i
  = update_stored
      (add_all (if decide (i = t) then (λ other : Z * nat, (other.1, v)) <$> l else []))
    <$> groups !! i.
Proof.
  induction l as [|x l IH]; intros groups i; cbn [foldl].
  { destruct (groups !! i) as [g|]; [| done]. rewrite fmap_nil.
    destruct (decide (i = t)); cbn [fmap option_fmap option_map];
      by rewrite update_stored_id. }
  rewrite IH, lookup_alter_add.
  destruct (groups !! i) as [g|]; [| done]. cbn [fmap option_fmap option_map].
  rewrite update_stored_compose. by destruct (decide (i = t)).
Qed.

Lemma lookup_record_one m a o results groups r i :
  record_one m a o results groups r !! i
  = update_stored (add_all (adds_at m a o results r i)) <$> groups !! i.
Proof.
  unfold record_one, adds_at.
  rewrite lookup_alter_add, lookup_alter_add, lookup_others_loop.
  destruct (groups !! i) as [g|]; [| done]. cbn [fmap option_fmap option_map].
  rewrite !update_stored_compose.
  destruct (decide (i = r.2)), (decide (i = o)); by rewrite <- ?app_assoc.
Qed.

Lemma lookup_record_mappings m a o results rs : ∀ groups i,
  foldl (record_one m a o results) groups rs !! i
  = update_stored (add_all (rs ≫= λ r, adds_at m a o results r i)) <$> groups !! i.
Proof.
  induction rs as [|r rs IH]; intros groups i; cbn [foldl].
  { destruct (groups !! i) as [g|]; [| done]. cbn [fmap option_fmap option_map].
    change ([] ≫= _) with (@nil (Z * StoredMessage)). by rewrite update_stored_id. }
  rewrite IH, lookup_record_one, bind_cons.
  destruct (groups !! i) as [g|]; [| done]. cbn [fmap option_fmap option_map].
  by rewrite update_stored_compose.
Qed.

(** A position that is neither a destination of [rs] nor the source sees
    no [add]. *)
Lemma adds_untouched m a o results rs i :
  i ≠ o → i ∉ rs.*2 → rs ≫= (λ r, adds_at m a o results r i) = [].
Proof.
  intros Ho. induction rs as [|r rs IH]; intros Hi; [done |].
  rewrite fmap_cons in Hi. apply not_elem_of_cons in Hi as [Hr Hi].
  rewrite bind_cons, (IH Hi). unfold adds_at.
  rewrite decide_False by done. by rewrite decide_False by done.
Qed.

(** The [add] calls on the cache of a destination: all in its own turn. *)
Lemma adds_at_target m a o results rs s t :
  NoDup rs.*2 → (s, t) ∈ rs → t ≠ o →
  rs ≫= (λ r, adds_at m a o results r t)
  = ((λ other : Z * nat, (other.1, {| id := s; author := a |})) <$> others results t)
    ++ [(m, {| id := s; author := a |})].
Proof.
  intros Hnd Hin Ho. induction rs as [|r rs IH]; [by apply elem_of_nil in Hin |].
  rewrite fmap_cons in Hnd. apply NoDup_cons in Hnd as [Hr Hnd].
  rewrite bind_cons. apply elem_of_cons in Hin as [<- | Hin].
  - rewrite (adds_untouched m a o results rs t Ho Hr). unfold adds_at. simpl.
    rewrite decide_True by done. rewrite decide_False by done.
    by rewrite !app_nil_r.
  - rewrite (IH Hnd Hin). unfold adds_at.
    rewrite decide_False.
    + by rewrite decide_False by done.
    + intros ->. apply Hr. apply list_elem_of_fmap. by exists (s, r.2).
Qed.

(** The [add] calls on the cache of the source: one per result. *)
Lemma adds_at_source m a o results rs :
  o ∉ rs.*2 →
  rs ≫= (λ r, adds_at m a o results r o)
  = (λ r : Z * nat, (r.1, {| id := m; author := a |})) <$> rs.
Proof.
  induction rs as [|r rs IH]; intros Ho; [done |].
  rewrite fmap_cons in Ho. apply not_elem_of_cons in Ho as [Hr Ho].
  rewrite bind_cons, (IH Ho), fmap_cons. unfold adds_at.
  rewrite decide_False by done. by rewrite decide_True by done.
Qed.

Lemma imap_pair_fst {A} (l : list A) : ∀ f : nat → nat,
  (imap (λ i x, (f i, x)) l).*1 = f <$> seq 0 (length l).
Proof.
  induction l as [|x l IH]; intros f; simpl; [done |]. f_equal.
  etrans; [apply (IH (f ∘ S)) |]. by rewrite <- fmap_S_seq, <- list_fmap_compose.
Qed.

Lemma sublist_fst_filter {A B} (P : A * B → Prop) `{∀ x, Decision (P x)}
    (l : list (A * B)) :
  (filter P l).*1 `sublist_of` l.*1.
Proof.
  induction l as [|x l IH]; [done |]. rewrite filter_cons.
  destruct (decide (P x)); rewrite !fmap_cons;
    [by apply sublist_skip | by apply sublist_cons].
Qed.

Lemma NoDup_targets groups fromGroup : NoDup (targets groups fromGroup).*1.
Proof.
  apply (sublist_NoDup _ (imap pair groups).*1); [| apply sublist_fst_filter].
  pose proof (imap_pair_fst groups (λ i, i)) as E. rewrite list_fmap_id in E.
  change (imap (λ i x, (i, x)) groups) with (imap pair groups) in E.
  rewrite E. apply NoDup_seq.
Qed.

End FanOutFacts.

Section FanOutResults.

Variables (qq : Z) (api : nat → SendCall → SendResult).
Implicit Types (groups : list Group) (msg : GroupMessage).

Lemma mapM_cons_Some {A} (x : option A) (l : list (option A)) k :
  mapM (λ x, x) (x :: l) = Some k ↔
  ∃ y k', x = Some y ∧ mapM (λ x, x) l = Some k' ∧ k = y :: k'.
Proof.
  rewrite mapM_Some. split.
  - intros H. apply Forall2_cons_inv_l in H as (y & k' & Hy & Hk & ->).
    exists y, k'. split; [done |]. split; [by apply mapM_Some | done].
  - intros (y & k' & -> & Hk & ->). apply Forall2_cons. split; [done |].
    by apply mapM_Some.
Qed.

(** The positions of the results are positions of calls, in order. *)
Lemma settled_positions (l : list (nat * SendCall)) :
  ∀ (f : nat → SendCall → SendResult) settled,
  mapM (λ x, x) (imap (λ n (tc : nat * SendCall), settle tc.1 (f n tc.2)) l)
    = Some settled →
  (successes settled).*2 `sublist_of` l.*1.
Proof.
  induction l as [|[t call] l IH]; intros f settled H.
  - cbn in H. injection H as <-. done.
  - rewrite imap_cons in H. apply mapM_cons_Some in H as (y & k' & Hy & Hk & ->).
    apply (IH (λ n, f (S n))) in Hk. unfold successes in *. cbn [fst snd] in Hy.
    destruct y as [[s t']|]; cbn.
    + destruct (f 0 call) as [s0 | e]; cbn in Hy.
      * injection Hy as -> ->. by apply sublist_skip.
      * by destruct (catch_throws e).
    + by apply sublist_cons.
Qed.

Lemma settled_lookup groups msg settled :
  fan_out_settled qq api groups msg = Some settled →
  ∀ n, settled !! n
       = (fan_out_calls qq groups msg !! n) ≫= λ tc, settle tc.1 (api n tc.2).
Proof.
  unfold fan_out_settled. intros H%mapM_Some_1 n.
  destruct (fan_out_calls qq groups msg !! n) as [tc|] eqn:Hn; cbn.
  - eapply (Forall2_lookup_l _ _ _ n) in H as (y & Hy & E).
    + rewrite Hy. symmetry. exact E.
    + by rewrite list_lookup_imap, Hn.
  - destruct (settled !! n) as [y|] eqn:Hy; [| done].
    eapply (Forall2_lookup_r _ _ _ n) in H as (x & Hx & _); [| exact Hy].
    rewrite list_lookup_imap, Hn in Hx. discriminate.
Qed.

(** [Promise.all] resolves exactly when no [catch] block throws. *)
Lemma fan_out_settled_None groups msg :
  fan_out_settled qq api groups msg = None ↔
  ∃ n tc e, fan_out_calls qq groups msg !! n = Some tc ∧
    api n tc.2 = Rejected e ∧ catch_throws e = true.
Proof.
  unfold fan_out_settled. split.
  - intros H%mapM_None_1. apply Exists_exists in H as (x & Hx & ->).
    apply elem_of_lookup_imap in Hx as (n & tc & Hx & Hn).
    exists n, tc. destruct (api n tc.2) as [s | e]; [done |]. cbn in Hx.
    exists e. by destruct (catch_throws e).
  - intros (n & tc & e & Hn & He & Hc). apply mapM_None_2, Exists_exists.
    exists None. split; [| done]. apply elem_of_lookup_imap.
    exists n, tc. split; [| done]. by rewrite He; cbn; rewrite Hc.
Qed.

Lemma fan_out_completes_settled groups msg :
  fan_out_completes qq api groups msg ↔ is_Some (fan_out_settled qq api groups msg).
Proof.
  unfold fan_out_completes. split.
  - intros H. destruct (fan_out_settled qq api groups msg) eqn:E; [done |].
    apply fan_out_settled_None in E as (n & tc & e & Hn & He & Hc).
    rewrite (H n tc e Hn He) in Hc. discriminate.
  - intros [settled Hs] n tc e Hn He.
    destruct (catch_throws e) eqn:Hc; [| done].
    assert (fan_out_settled qq api groups msg = None) as E
      by (apply fan_out_settled_None; by exists n, tc, e).
    congruence.
Qed.

Lemma elem_of_fan_out_results groups msg s t :
  (s, t) ∈ fan_out_results qq api groups msg ↔
  fan_out_completes qq api groups msg ∧
  ∃ n call, fan_out_calls qq groups msg !! n = Some (t, call) ∧ api n call = Sent s.
Proof.
  rewrite fan_out_completes_settled. unfold fan_out_results.
  destruct (fan_out_settled qq api groups msg) as [settled|] eqn:E.
  - pose proof (settled_lookup groups msg settled E) as Hl.
    unfold successes. rewrite list_elem_of_omap. split.
    + intros (y & Hy & ->). split; [done |].
      apply list_elem_of_lookup in Hy as [n Hy]. rewrite Hl in Hy.
      destruct (fan_out_calls qq groups msg !! n) as [[t' call]|] eqn:Hn; [| done].
      cbn in Hy. exists n, call.
      destruct (api n call) as [s' | e]; cbn in Hy.
      * by injection Hy as -> ->.
      * by destruct (catch_throws e).
    + intros (_ & n & call & Hn & Hs). exists (Some (s, t)). split; [| done].
      apply list_elem_of_lookup. exists n. rewrite Hl, Hn. cbn. by rewrite Hs.
  - split; [by intros H%elem_of_nil |]. intros [[? ?] _]. done.
Qed.

Lemma fan_out_results_positions groups msg :
  (fan_out_results qq api groups msg).*2 `sublist_of` (fan_out_calls qq groups msg).*1.
Proof.
  unfold fan_out_results.
  destruct (fan_out_settled qq api groups msg) as [settled|] eqn:E.
  - by apply (settled_positions _ api settled).
  - apply sublist_nil_l.
Qed.

Lemma onGroupMessage_fst groups msg o og :
  list_find (λ g, group g = sender_group msg) groups = Some (o, og) →
  (onGroupMessage qq api groups msg).1
  = record_mappings (messageId msg) (sender_id msg) o
      (fan_out_results qq api groups msg) groups.
Proof.
  intros Hfind. unfold onGroupMessage, fan_out_results. rewrite Hfind. cbn [fst].
  by destruct (fan_out_settled qq api groups msg).
Qed.

Lemma fan_out_calls_positions groups msg o og :
  list_find (λ g, group g = sender_group msg) groups = Some (o, og) →
  (fan_out_calls qq groups msg).*1 = (targets groups (sender_group msg)).*1.
Proof.
  intros Hfind. unfold fan_out_calls. rewrite Hfind.
  by rewrite <- list_fmap_compose.
Qed.

Lemma NoDup_fan_out_calls groups msg : NoDup (fan_out_calls qq groups msg).*1.
Proof.
  unfold fan_out_calls.
  destruct (list_find _ groups) as [[o og]|]; [| apply NoDup_nil_2].
  rewrite <- list_fmap_compose. apply NoDup_targets.
Qed.

Lemma NoDup_fan_out_results groups msg : NoDup (fan_out_results qq api groups msg).*2.
Proof.
  apply (sublist_NoDup _ (fan_out_calls qq groups msg).*1).
  - apply NoDup_fan_out_calls.
  - apply fan_out_results_positions.
Qed.

(** A result belongs to a destination: a configured group other than the
    source. *)
Lemma fan_out_results_dest groups msg o og s t :
  list_find (λ g, group g = sender_group msg) groups = Some (o, og) →
  (s, t) ∈ fan_out_results qq api groups msg →
  t ≠ o ∧ ∃ dest, groups !! t = Some dest ∧ group dest ≠ sender_group msg.
Proof.
  intros Hfind (_ & n & call & Hn & _)%elem_of_fan_out_results.
  assert (t ∈ (targets groups (sender_group msg)).*1) as Ht.
  { rewrite <- (fan_out_calls_positions groups msg o og Hfind).
    apply list_elem_of_fmap. exists (t, call). split; [done |].
    by eapply list_elem_of_lookup_2. }
  apply list_elem_of_fmap in Ht as ([t' dest] & -> & Hd).
  apply elem_of_targets in Hd as [Hd Hne]. simpl.
  apply list_find_Some in Hfind as (Ho & Hg & _).
  split; [| by exists dest]. intros ->. congruence.
Qed.

Lemma source_not_a_result groups msg o og :
  list_find (λ g, group g = sender_group msg) groups = Some (o, og) →
  o ∉ (fan_out_results qq api groups msg).*2.
Proof.
  intros Hfind ([s t] & -> & Hin)%list_elem_of_fmap.
  by destruct (fan_out_results_dest groups msg _ og s t Hfind Hin).
Qed.

Lemma lookup_onGroupMessage groups msg o og i :
  list_find (λ g, group g = sender_group msg) groups = Some (o, og) →
  (onGroupMessage qq api groups msg).1 !! i
  = update_stored
      (add_all (fan_out_results qq api groups msg ≫=
                  λ r, adds_at (messageId msg) (sender_id msg) o
                         (fan_out_results qq api groups msg) r i))
    <$> groups !! i.
Proof.
  intros Hfind. rewrite (onGroupMessage_fst groups msg o og Hfind).
  apply lookup_record_mappings.
Qed.

End FanOutResults.

Section FanOutTheorems.

Implicit Types (qq : Z) (api : nat → SendCall → SendResult)
  (groups : list Group) (msg : GroupMessage).

Lemma translate_None_reachable k (s : StoredMessages) :
  translate k s = None ↔ k ∉ reachable s.
Proof.
  rewrite elem_of_reachable. destruct (translate k s) as [v|]; split.
  - done.
  - intros H. destruct H. by exists v.
  - intros _ [v Hv]. discriminate Hv.
  - done.
Qed.

(** C2, as stated, fails: after "hi" (message 10 of user 1 in group 1) was
    sent to group 2 as 20 and to group 3 as 30, the cache of group 2 maps
    the id 30 of the other copy to the id 20 of its own copy, not to 30. *)
Lemma C2_counterexample :
  fan_out_results Example.bot Example.send_ok Example.groups0 Example.hi
    = [(20%Z, 1); (30%Z, 2)] ∧
  (λ g, translate 30 (stored g)) <$> (Example.groups1 !! 1)
    = Some (Some {| id := 20; author := 1 |}) ∧
  (λ g, translate 30 (stored g)) <$> (Example.groups1 !! 1)
    ≠ Some (Some {| id := 30; author := 1 |}).
Proof. vm_compute. split_and!; [done | done | discriminate]. Qed.

(** C2, amended: take a fan-out, of a message with author [a] and id
    [m], in which no [catch] block throws, so that [Promise.all] resolves
    and the recording loop runs; its successful destinations are exactly
    the destinations whose send returned an id.  The cache of every
    successful destination receives, for its own sent id [s], the
    insertions (sent id of another successful destination ↦ {author: a,
    id: s}), one per other successful destination, and then
    (m ↦ {author: a, id: s}); the cache of the source group receives
    (sent id ↦ {author: a, id: m}) for every successful destination and
    nothing else.  Hence afterwards the destination's cache translates [m]
    to {author: a, id: its OWN sent id} and, when there are at most
    threshold + 2 successful destinations, so it does every other sent id;
    the source's cache then translates every sent id to {author: a, id: m},
    and it gains no entry for [m] itself unless a sent id equals [m].
    ([wf] is the invariant of every cache made by the constructor and
    [add].) *)
Theorem C2_recorded_mappings qq api groups msg o og :
  Forall (λ g, wf (stored g)) groups →
  list_find (λ g, group g = sender_group msg) groups = Some (o, og) →
  let results := fan_out_results qq api groups msg in
  let groups' := (onGroupMessage qq api groups msg).1 in
  let a := sender_id msg in
  let m := messageId msg in
  fan_out_completes qq api groups msg →
  (∀ s t, (s, t) ∈ results ↔
     ∃ n call, fan_out_calls qq groups msg !! n = Some (t, call) ∧
       api n call = Sent s) ∧
  (∀ s t, (s, t) ∈ results →
     ∃ dest dest', groups !! t = Some dest ∧ groups' !! t = Some dest' ∧
       stored dest' =
         add_all (((λ other : Z * nat, (other.1, {| id := s; author := a |}))
                     <$> others results t)
                  ++ [(m, {| id := s; author := a |})]) (stored dest) ∧
       translate m (stored dest') = Some {| id := s; author := a |} ∧
       (length results ≤ S (S threshold) →
        ∀ s' t', (s', t') ∈ results → t' ≠ t →
          translate s' (stored dest') = Some {| id := s; author := a |})) ∧
  (∃ og', groups' !! o = Some og' ∧
     stored og' =
       add_all ((λ r : Z * nat, (r.1, {| id := m; author := a |})) <$> results)
         (stored og) ∧
     (length results ≤ S (S threshold) →
      ∀ s t, (s, t) ∈ results →
        translate s (stored og') = Some {| id := m; author := a |}) ∧
     ((∀ s t, (s, t) ∈ results → s ≠ m) →
        translate m (stored og) = None → translate m (stored og') = None)).
Proof.
  intros Hwf Hfind results groups' a m Hcompletes.
  pose proof (NoDup_fan_out_results qq api groups msg) as Hnd. fold results in Hnd.
  pose proof (source_not_a_result qq api groups msg o og Hfind) as Hsrc.
  fold results in Hsrc.
  split; [| split].
  - intros s t. unfold results. rewrite elem_of_fan_out_results. tauto.
  - intros s t Hin.
    destruct (fan_out_results_dest qq api groups msg o og s t Hfind Hin)
      as [Hto (dest & Hd & _)].
    assert (wf (stored dest)) as Hwfd.
    { eapply (Forall_forall (λ g, wf (stored g))); [exact Hwf |].
      by eapply list_elem_of_lookup_2. }
    exists dest. eexists. split; [done |]. split.
    { unfold groups'. rewrite (lookup_onGroupMessage qq api groups msg o og t Hfind).
      fold results. rewrite (adds_at_target _ _ o results results s t Hnd Hin Hto).
      rewrite Hd. reflexivity. }
    cbn [stored update_stored]. split; [done |]. split.
    + rewrite add_all_app. cbn [add_all foldl fst snd].
      apply translate_add_eq, wf_add_all, Hwfd.
    + intros Hlen s' t' Hin' Hne. apply translate_add_all_elem; [done | | |].
      * apply elem_of_app. left. apply list_elem_of_fmap. exists (s', t').
        split; [done |]. unfold others. apply list_elem_of_filter. done.
      * apply Forall_app. split; [| by apply Forall_singleton].
        apply Forall_fmap, Forall_true. done.
      * rewrite length_app, length_fmap. simpl.
        pose proof (length_filter_lt (λ other : Z * nat, other.2 ≠ t) results (s, t) Hin)
          as Hlt.
        unfold others. simpl in Hlt. lia.
  - apply list_find_Some in Hfind as Hfind'. destruct Hfind' as (Ho & _ & _).
    assert (wf (stored og)) as Hwfo.
    { eapply (Forall_forall (λ g, wf (stored g))); [exact Hwf |].
      by eapply list_elem_of_lookup_2. }
    eexists. split.
    { unfold groups'. rewrite (lookup_onGroupMessage qq api groups msg o og o Hfind).
      fold results. rewrite (adds_at_source _ _ o results results Hsrc).
      rewrite Ho. reflexivity. }
    cbn [stored update_stored]. split; [done |]. split.
    + intros Hlen s t Hin. apply translate_add_all_elem; [done | | |].
      * apply list_elem_of_fmap. by exists (s, t).
      * apply Forall_fmap, Forall_true. done.
      * rewrite length_fmap. done.
    + intros Hne Hnone. apply translate_None_reachable.
      apply reachable_add_all_ne; [done | | by apply translate_None_reachable].
      rewrite <- list_fmap_compose.
      intros ([s t] & Hm & Hin)%list_elem_of_fmap. simpl in Hm.
      by apply (Hne s t Hin).
Qed.

Lemma C2_recorded_mappings_witness :
  ∃ destB, Example.groups1 !! 1 = Some destB ∧
    translate 10 (stored destB) = Some {| id := 20; author := 1 |} ∧
    translate 30 (stored destB) = Some {| id := 20; author := 1 |}.
Proof.
  destruct (C2_recorded_mappings Example.bot Example.send_ok Example.groups0
              Example.hi 0 Example.groupA) as (_ & H & _).
  - repeat (apply Forall_cons_2; [apply wf_new |]). apply Forall_nil_2.
  - vm_compute. reflexivity.
  - intros n tc e _ He. discriminate He.
  - destruct (H 20%Z 1) as (dest & destB & _ & H1 & _ & H2 & H3).
    + vm_compute. left.
    + exists destB. split; [exact H1 |]. split; [exact H2 |].
      apply (H3 ltac:(vm_compute; lia) 30%Z 2); [| lia]. vm_compute. right. left.
Defined.

(** C8 fails on the code.  "hi" is sent to groups 2 and 3; the send to
    group 2 rejects with [undefined], the send to group 3 succeeds with the
    id 30.  The [catch] block reads [e.constructor] of [undefined] and
    throws, so [Promise.all] rejects and the recording loop is not reached:
    group 3 has received its copy, but no cache holds a mapping for it.
    With a rejection that the block can log, the same fan-out records the
    mappings of group 3. *)
Lemma C8_failing_input :
  let r := onGroupMessage Example.bot Example.send_undefined_B Example.groups0
             Example.hi in
  call_group <$> r.2 = [2%Z; 3%Z] ∧
  (λ c, Example.send_undefined_B 1 c) <$> r.2 !! 1 = Some (Sent 30) ∧
  r.1 = Example.groups0 ∧
  (λ g, translate 10 (stored g)) <$> r.1 !! 2 = Some None ∧
  (λ g, translate 10 (stored g))
    <$> (onGroupMessage Example.bot Example.send_fail_B Example.groups0 Example.hi).1 !! 2
    = Some (Some {| id := 30; author := 1 |}).
Proof. vm_compute. done. Qed.

End FanOutTheorems.

(** * Further properties of the code *)

(** ** The cache *)

Section CacheExtras.

Implicit Types (s : StoredMessages) (k : Z) (v : StoredMessage)
  (l : list (Z * StoredMessage)).

Lemma add_all_snoc l k v s : add_all (l ++ [(k, v)]) s = add k v (add_all l s).
Proof. by rewrite add_all_app. Qed.

Lemma latest_snoc_eq l k v : latest (l ++ [(k, v)]) k v.
Proof. exists l, []. split; [done |]. apply not_elem_of_nil. Qed.

Lemma latest_snoc_ne l k v k' v' :
  k ≠ k' → latest l k v → latest (l ++ [(k', v')]) k v.
Proof.
  intros Hne (l1 & l2 & -> & Hk). exists l1, (l2 ++ [(k', v')]). split.
  - by rewrite <- app_assoc.
  - rewrite fmap_app. intros [H | H]%elem_of_app; [done |].
    apply list_elem_of_singleton in H. done.
Qed.

Lemma up_to_date_add l k v s :
  up_to_date l s → up_to_date (l ++ [(k, v)]) (add k v s).
Proof.
  intros (Hwf & Hc & Ho). destruct (add_view k v s Hwf) as [Hwf' Hv].
  split; [done |].
  destruct (over_threshold s); destruct Hv as [-> ->]; split.
  - intros k' v' [<- <-]%lookup_singleton_Some. apply latest_snoc_eq.
  - intros k' v' Hn%lookup_singleton_None Hk'.
    apply latest_snoc_ne; [done | by apply Hc].
  - intros k' v' [[<- <-] | [Hne Hk']]%lookup_insert_Some.
    + apply latest_snoc_eq.
    + apply latest_snoc_ne; [done | by apply Hc].
  - intros k' v' [Hne Hn]%lookup_insert_None Hk'.
    apply latest_snoc_ne; [done | by apply Ho].
Qed.

Lemma up_to_date_add_all l : up_to_date l (add_all l new_StoredMessages).
Proof.
  induction l as [|[k v] l IH] using rev_ind.
  - split; [apply wf_new |]. split; intros k v; cbn; by rewrite ?lookup_empty.
  - rewrite add_all_snoc. by apply up_to_date_add.
Qed.

(** X1: whatever was inserted before, [translate] answers, if at all,
    with the value of the most recent [add] for that key: never with a
    value that was overwritten, and never for a key that was not added. *)
Theorem X1_translate_latest l k v :
  translate k (add_all l new_StoredMessages) = Some v → latest l k v.
Proof.
  destruct (up_to_date_add_all l) as (_ & Hc & Ho). unfold translate.
  destruct (current (add_all l new_StoredMessages) !! k) as [v'|] eqn:E.
  - intros [= <-]. by apply Hc.
  - by apply Ho.
Qed.

Lemma X1_translate_latest_witness :
  latest [(1%Z, {| id := 5; author := 1 |}); (2%Z, {| id := 6; author := 1 |});
          (1%Z, {| id := 7; author := 2 |})] 1 {| id := 7; author := 2 |}.
Proof. apply X1_translate_latest. vm_compute. reflexivity. Defined.

(** X2: an [add] makes its key translate to its value, and leaves the
    translation of every other key of the current generation as it was,
    whether the [add] rotates or not. *)
Theorem X2_add_lookup k v k' v' s :
  wf s → k' ≠ k → current s !! k' = Some v' →
  translate k (add k v s) = Some v ∧ translate k' (add k v s) = Some v'.
Proof.
  intros Hwf Hne Hk'. split; [by apply translate_add_eq |].
  destruct (add_view k v s Hwf) as [_ Hv]. unfold translate.
  destruct (over_threshold s); destruct Hv as [-> ->].
  - by rewrite lookup_singleton_ne, Hk'.
  - by rewrite lookup_insert_ne, Hk'.
Qed.

Lemma X2_add_lookup_witness :
  let s := add_all (entries 201) new_StoredMessages in
  translate 500 (add 500 {| id := 1; author := 1 |} s) = Some {| id := 1; author := 1 |} ∧
  translate 7 (add 500 {| id := 1; author := 1 |} s) = Some {| id := 7; author := 1 |}.
Proof.
  intros s. apply X2_add_lookup.
  - apply wf_add_all, wf_new.
  - lia.
  - vm_compute. reflexivity.
Defined.

(** X3: a rotating [add] forgets the older generation: afterwards a key
    other than the inserted one is translated exactly when the generation
    that was current holds it. *)
Theorem X3_rotation_forgets k v k' s :
  wf s → over_threshold s = true → k' ≠ k →
  translate k' (add k v s) = current s !! k'.
Proof.
  intros Hwf Hover Hne. destruct (add_view k v s Hwf) as [_ Hv].
  rewrite Hover in Hv. destruct Hv as [Hc Ho]. unfold translate.
  by rewrite Hc, Ho, lookup_singleton_ne.
Qed.

Lemma X3_rotation_forgets_witness :
  let s := add_all (entries 402) new_StoredMessages in
  translate 7 s = Some {| id := 7; author := 1 |} ∧
  translate 7 (add 500 {| id := 1; author := 1 |} s) = None.
Proof.
  intros s. split; [vm_compute; reflexivity |].
  rewrite X3_rotation_forgets.
  - vm_compute. reflexivity.
  - apply wf_add_all, wf_new.
  - vm_compute. reflexivity.
  - lia.
Defined.

(** X4: rotations are rare: along any sequence of insertions, each
    rotation is paid for by [threshold + 1] entries that were inserted
    before it, so that a new cache rotates at most once per 201 calls. *)
Theorem X4_rotation_spacing l : ∀ s,
  wf s →
  S threshold * rotations l s + size (current (add_all l s))
    ≤ length l + size (current s).
Proof.
  induction l as [|[k v] l IH]; intros s Hwf; [simpl; lia |].
  destruct (add_view k v s Hwf) as [Hwf' Hv].
  specialize (IH (add k v s) Hwf'). cbn [rotations add_all foldl length fst snd] in *.
  change (foldl _ (add k v s) l) with (add_all l (add k v s)).
  destruct (over_threshold s) eqn:E; destruct Hv as [Hc _]; rewrite Hc in IH.
  - apply over_threshold_true in E. rewrite map_size_singleton in IH. lia.
  - pose proof (size_insert_le k v (current s)). lia.
Qed.

Lemma X4_rotation_spacing_witness :
  201 * rotations (entries 402) new_StoredMessages
    + size (current (add_all (entries 402) new_StoredMessages)) ≤ 402 + 0.
Proof. apply (X4_rotation_spacing (entries 402) new_StoredMessages), wf_new. Defined.

Lemma holds_add_other k v n k' v' s :
  holds k v n s → n ≤ threshold → k' ≠ k → holds k v (S n) (add k' v' s).
Proof.
  intros [Hwf H] Hn Hne. destruct (add_view k' v' s Hwf) as [Hwf' Hv].
  split; [done |].
  destruct (over_threshold s) eqn:E; destruct Hv as [-> ->].
  - destruct H as [H | (_ & _ & Hsz)].
    + right. rewrite lookup_singleton_ne by done.
      rewrite map_size_singleton. split_and!; [done | done | lia].
    + apply over_threshold_true in E. lia.
  - rewrite lookup_insert_ne by done. destruct H as [H | (H1 & H2 & Hsz)]; [by left |].
    right. pose proof (size_insert_le k' v' (current s)). split_and!; [done | done | lia].
Qed.

Lemma holds_add_all_other k v l : ∀ n s,
  holds k v n s → k ∉ l.*1 → n + length l ≤ S threshold →
  holds k v (n + length l) (add_all l s).
Proof.
  induction l as [|[k' v'] l IH]; intros n s H Hk Hn; simpl in *.
  - by rewrite Nat.add_0_r.
  - apply not_elem_of_cons in Hk as [Hne Hk].
    replace (n + S (length l)) with (S n + length l) by lia.
    apply IH; [apply holds_add_other; [done | lia | done] | done | lia].
Qed.

(** X5: an entry outlives the next [threshold + 1] = 201 insertions of
    other keys, whatever the state of the cache when it was inserted. *)
Theorem X5_survives_201 k v l s :
  wf s → k ∉ l.*1 → length l ≤ S threshold →
  translate k (add_all l (add k v s)) = Some v.
Proof.
  intros Hwf Hk Hlen. apply (holds_translate k v (0 + length l)).
  apply holds_add_all_other; [| done | lia].
  split; [by apply wf_add |]. left.
  destruct (add_view k v s Hwf) as [_ H].
  destruct (over_threshold s); destruct H as [-> _];
    by rewrite ?lookup_singleton_eq, ?lookup_insert_eq.
Qed.

Lemma X5_survives_201_witness :
  translate 500 (add_all (entries 201)
                   (add 500 {| id := 1; author := 1 |}
                      (add_all (entries 200) new_StoredMessages)))
  = Some {| id := 1; author := 1 |}.
Proof.
  apply X5_survives_201.
  - apply wf_add_all, wf_new.
  - apply (bool_decide_unpack _). vm_compute. exact I.
  - vm_compute. lia.
Defined.

End CacheExtras.

(** ** The rewriting of a chain *)

Section RewriterExtras.

Implicit Types (qq : Z) (groups : list Group) (dest : Group)
  (cache : StoredMessages) (chain : list MessageType)
  (quote : option StoredMessage).

Lemma map_segment_not_at qq groups og dest quote x :
  is_at x = false → map_segment qq groups og dest quote x = x.
Proof. by destruct x. Qed.

Lemma filter_chain_no_at qq cache chain : ∀ quote c,
  Forall (λ x, is_at x = false) chain →
  (filter_chain qq cache quote c chain).1 = drop_quotes chain.
Proof.
  induction chain as [|x chain IH]; intros quote c Hno; [done |].
  apply Forall_cons in Hno as [Hx Hno].
  destruct x as [i tm | i | target display | text | type]; try done;
    try (rewrite drop_quotes_keep by done; simpl; by rewrite IH).
  rewrite drop_quotes_drop. simpl. by apply IH.
Qed.

(** X6: a chain without at-mentions is relayed as it is, minus its quote
    segments, which become the reply target of the send. *)
Theorem X6_no_mentions qq groups og dest chain :
  Forall (λ x, is_at x = false) chain →
  process_chain qq groups og dest chain
    = (drop_quotes chain, spec_quote (stored dest) chain).
Proof.
  intros Hno. rewrite (surjective_pairing (process_chain qq groups og dest chain)).
  rewrite process_chain_quote. f_equal.
  unfold process_chain. cbn [fst]. rewrite filter_chain_no_at by done.
  rewrite <- (list_fmap_id (drop_quotes chain)) at 2.
  apply list_fmap_ext. intros i x Hx. apply map_segment_not_at.
  apply list_elem_of_lookup_2, list_elem_of_filter in Hx as [_ Hx].
  by eapply (Forall_forall (λ x, is_at x = false)).
Qed.

Lemma X6_no_mentions_witness :
  process_chain Example.bot Example.groups1 (Some Example.groupA1) Example.groupB1
    [Source 13 0; Quote 10; Plain "ok"; Opaque "Image"]
  = ([Source 13 0; Plain "ok"; Opaque "Image"], Some {| id := 20; author := 1 |}).
Proof.
  rewrite X6_no_mentions.
  - vm_compute. reflexivity.
  - repeat (apply Forall_cons_2; [reflexivity |]). apply Forall_nil_2.
Defined.

(** X7: when no quote of the chain is resolved, nothing goes out as a
    live mention: every at-mention has become text. *)
Theorem X7_no_quote_no_live_mention qq groups og dest chain x :
  spec_quote (stored dest) chain = None →
  x ∈ (process_chain qq groups og dest chain).1 → is_at x = false.
Proof.
  intros Hq. pose proof (process_chain_quote qq groups og dest chain) as E.
  rewrite Hq in E. unfold process_chain in *. cbn [fst snd] in *. rewrite E.
  intros (y & -> & _)%list_elem_of_fmap. by destruct y.
Qed.

Lemma X7_no_quote_no_live_mention_witness :
  is_at (Plain "@bot") = false.
Proof.
  apply (X7_no_quote_no_live_mention Example.bot Example.groups0 (Some Example.groupA)
           Example.groupB (messageChain Example.ping)).
  - vm_compute. reflexivity.
  - vm_compute. right. left.
Defined.

Lemma filter_chain_kept qq cache chain : ∀ quote c,
  (filter_chain qq cache quote c chain).1 `sublist_of` drop_quotes chain ∧
  drop_at_me qq (filter_chain qq cache quote c chain).1
    = drop_at_me qq (drop_quotes chain).
Proof.
  induction chain as [|x chain IH]; intros quote c; [done |].
  destruct x as [i tm | i | target display | text | type];
    try (rewrite drop_quotes_keep by done; simpl;
         destruct (IH quote c) as [IH1 IH2]; split;
         [by apply sublist_skip | by rewrite !drop_at_me_keep, IH2 by done]).
  - rewrite drop_quotes_drop. simpl. apply IH.
  - rewrite drop_quotes_keep by done. simpl.
    destruct (bool_decide (is_Some quote) && bool_decide (target = qq)) eqn:E.
    + apply andb_true_iff in E as [_ E]. simpl.
      destruct (IH quote (S c)) as [IH1 IH2].
      destruct (bool_decide (c = 0)); simpl; split.
      * by apply sublist_skip.
      * by rewrite !drop_at_me_drop, IH2 by (simpl; by rewrite E).
      * by apply sublist_cons.
      * by rewrite drop_at_me_drop, IH2 by (simpl; by rewrite E).
    + simpl. destruct (IH quote c) as [IH1 IH2]. split; [by apply sublist_skip |].
      destruct (bool_decide (target = qq)) eqn:E'.
      * by rewrite !drop_at_me_drop, IH2 by (simpl; by rewrite E').
      * by rewrite !drop_at_me_keep, IH2 by (simpl; by rewrite E').
Qed.

(** X8: the rewriting keeps the order of the segments and loses nothing
    but quote segments and mentions of the relay's own account: what is
    sent has one segment per kept segment, the kept segments are a
    subsequence of the chain without its quotes, they hold every segment
    that is not a self-mention, and a segment that is not an at-mention is
    sent unchanged. *)
Theorem X8_order_preserved qq groups og dest chain :
  let kept := (filter_chain qq (stored dest) None 0 chain).1 in
  let processed := (process_chain qq groups og dest chain).1 in
  kept `sublist_of` drop_quotes chain ∧
  drop_at_me qq kept = drop_at_me qq (drop_quotes chain) ∧
  length processed = length kept ∧
  ∀ i x, kept !! i = Some x →
    processed !! i = Some (if is_at x then map_segment qq groups og dest
                                             (spec_quote (stored dest) chain) x
                           else x).
Proof.
  intros kept processed.
  destruct (filter_chain_kept qq (stored dest) chain None 0) as [H1 H2].
  split_and!; [done | done | apply length_fmap |].
  intros i x Hx. unfold processed, process_chain. cbn [fst].
  rewrite list_lookup_fmap. fold kept. rewrite Hx. cbn. f_equal.
  destruct (is_at x) eqn:E; [| by apply map_segment_not_at].
  rewrite filter_chain_quote. by destruct (spec_quote (stored dest) chain).
Qed.

Lemma X8_order_preserved_witness :
  (process_chain Example.bot Example.groups1 (Some Example.groupA1) Example.groupC1
     (messageChain Example.reply)).1 !! 2 = Some (Plain "re").
Proof.
  destruct (X8_order_preserved Example.bot Example.groups1 (Some Example.groupA1)
              Example.groupC1 (messageChain Example.reply)) as (_ & _ & _ & H).
  apply (H 2 (Plain "re")). vm_compute. reflexivity.
Defined.

Lemma first_at_me_only_first qq p1 x p2 :
  Forall (λ y, is_at_me qq y = false) p1 → is_at_me qq x = true →
  x ∈ first_at_me_only qq (p1 ++ x :: p2).
Proof.
  intros Hp1 Hx. induction p1 as [|y p1 IH]; simpl.
  - rewrite Hx. left.
  - apply Forall_cons in Hp1 as [Hy Hp1]. rewrite Hy. right. by apply IH.
Qed.

Lemma drop_quotes_app l1 l2 : drop_quotes (l1 ++ l2) = drop_quotes l1 ++ drop_quotes l2.
Proof. apply filter_app. Qed.

Lemma drop_quotes_at_me qq l :
  Forall (λ y, is_at_me qq y = false) l →
  Forall (λ y, is_at_me qq y = false) (drop_quotes l).
Proof.
  intros H. apply Forall_forall. intros y [_ Hy]%list_elem_of_filter.
  by eapply (Forall_forall (λ y, is_at_me qq y = false)).
Qed.

(** X9: a reply keeps its mention.  When the chain holds a quote that the
    destination's cache translates and, after it, a mention of the relay's
    own account, and the author of the quote that is finally resolved is a
    member of the destination group (with an id other than 0), the first
    such mention is sent as a live mention of that author. *)
Theorem X9_reply_mention qq groups og dest pre i q0 p1 display p2 q :
  unresolved (stored dest) pre →
  translate i (stored dest) = Some q0 →
  Forall (λ y, is_at_me qq y = false) p1 →
  spec_quote (stored dest) (pre ++ Quote i :: p1 ++ At qq display :: p2) = Some q →
  author q ≠ 0%Z → author q ∈ dom (members dest) →
  At (author q) display
    ∈ (process_chain qq groups og dest
         (pre ++ Quote i :: p1 ++ At qq display :: p2)).1.
Proof.
  intros Hpre Hi Hp1 Hq Hz Hm. set (chain := pre ++ _) in *.
  pose proof (process_chain_quote qq groups og dest chain) as E. rewrite Hq in E.
  unfold process_chain in *. cbn [fst snd] in *. rewrite E.
  apply list_elem_of_fmap. exists (At qq display). split.
  - unfold map_segment. rewrite (bool_decide_eq_true_2 (qq = qq)) by done.
    unfold author_or_qq. rewrite (bool_decide_eq_false_2 (author q = 0%Z)) by done.
    cbn [fmap option_fmap option_map].
    rewrite (bool_decide_eq_false_2 (Some (author q) ≠ Some (author q)))
      by (intros H; by apply H).
    rewrite (bool_decide_eq_true_2 (is_Some _)) by by apply elem_of_dom.
    done.
  - unfold chain. rewrite filter_chain_unresolved_app by done.
    cbn [fst filter_chain]. rewrite Hi, filter_chain_resolved.
    rewrite (bool_decide_eq_true_2 (0 = 0)) by done.
    apply elem_of_app. right. rewrite drop_quotes_app, drop_quotes_keep by done.
    apply first_at_me_only_first; [by apply drop_quotes_at_me |].
    simpl. by rewrite bool_decide_eq_true_2.
Qed.

Lemma X9_reply_mention_witness :
  At 1 "bot"
    ∈ (process_chain Example.bot Example.groups1 (Some Example.groupA1) Example.groupC1
         ([Source 11 0] ++ Quote 10 :: [] ++ At Example.bot "bot" ::
            [Plain "re"; At 100 "bot"; At 3 "w"])).1.
Proof.
  apply (X9_reply_mention Example.bot Example.groups1 (Some Example.groupA1)
           Example.groupC1 [Source 11 0] 10 {| id := 30; author := 1 |} []
           "bot" _ {| id := 30; author := 1 |}).
  - intros j Hj. no_quote_in Hj.
  - vm_compute. reflexivity.
  - apply Forall_nil_2.
  - vm_compute. reflexivity.
  - discriminate.
  - vm_compute. reflexivity.
Defined.

Lemma search_name_result target (searchFrom : list (gmap Z string)) display :
  search_name target searchFrom display = display ∨
  ∃ m, m ∈ searchFrom ∧ m !! target = Some (search_name target searchFrom display)
       ∧ search_name target searchFrom display ≠ "".
Proof.
  induction searchFrom as [|m rest IH]; simpl; [by left |].
  destruct (m !! target) as [n|] eqn:E.
  - destruct (decide (n = "")) as [-> | Hn].
    + rewrite bool_decide_eq_true_2 by done.
      destruct IH as [IH | (m' & Hm' & Hl & Hne)]; [by left |].
      right. exists m'. split; [by right | done].
    + rewrite bool_decide_eq_false_2 by done. right. exists m.
      split; [left | done].
  - destruct IH as [IH | (m' & Hm' & Hl & Hne)]; [by left |].
    right. exists m'. split; [by right | done].
Qed.

(** X10: the name written for a downgraded mention is the mention's own
    display text or a non-empty name that one of the searched member lists
    gives for that user; so the text is never a bare "@" unless the display
    text itself is empty. *)
Theorem X10_name_never_empty target (searchFrom : list (gmap Z string)) display :
  display ≠ "" →
  search_name target searchFrom display ≠ "" ∧
  (search_name target searchFrom display = display ∨
   ∃ m, m ∈ searchFrom ∧ m !! target = Some (search_name target searchFrom display)).
Proof.
  intros Hd. destruct (search_name_result target searchFrom display)
    as [E | (m & Hm & Hl & Hne)].
  - split; [by rewrite E | by left].
  - split; [done |]. right. by exists m.
Qed.

Lemma X10_name_never_empty_witness :
  search_name 7 [{[ 7%Z := "" ]}; {[ 7%Z := "seven" ]}] "d" ≠ "".
Proof. apply X10_name_never_empty. discriminate. Defined.

End RewriterExtras.

(** ** The handler *)

Section HandlerExtras.

Implicit Types (qq : Z) (api : nat → SendCall → SendResult)
  (groups : list Group) (msg : GroupMessage).

(** Each group of the handler's result is the group at the same position
    with some insertions made into its cache. *)
Lemma handler_lookup qq api groups msg i :
  ∃ l, (onGroupMessage qq api groups msg).1 !! i
       = update_stored (add_all l) <$> groups !! i.
Proof.
  destruct (list_find (λ g, group g = sender_group msg) groups) as [[o og]|] eqn:Hfind.
  - eexists. by apply (lookup_onGroupMessage qq api groups msg o og).
  - exists []. unfold onGroupMessage. rewrite Hfind. cbn [fst].
    destruct (groups !! i) as [g|]; [| done]. cbn. by rewrite update_stored_id.
Qed.

Lemma handler_group qq api groups msg :
  group <$> (onGroupMessage qq api groups msg).1 = group <$> groups.
Proof.
  apply list_eq. intros i. rewrite !list_lookup_fmap.
  destruct (handler_lookup qq api groups msg i) as [l ->].
  by destruct (groups !! i).
Qed.

Lemma handler_members qq api groups msg :
  members <$> (onGroupMessage qq api groups msg).1 = members <$> groups.
Proof.
  apply list_eq. intros i. rewrite !list_lookup_fmap.
  destruct (handler_lookup qq api groups msg i) as [l ->].
  by destruct (groups !! i).
Qed.

Lemma handler_bounded qq api groups msg :
  Forall (λ g, bounded (stored g)) groups →
  Forall (λ g, bounded (stored g)) (onGroupMessage qq api groups msg).1.
Proof.
  intros H. apply Forall_lookup. intros i g' Hg'.
  destruct (handler_lookup qq api groups msg i) as [l E]. rewrite E in Hg'.
  destruct (groups !! i) as [g|] eqn:Hg; [| done]. injection Hg' as <-.
  cbn [stored update_stored]. apply bounded_add_all.
  by eapply (Forall_lookup_1 (λ g, bounded (stored g))).
Qed.

(** X11: the relay never sends a message back where it came from: every
    send of a fan-out goes to a configured group whose id differs from the
    id of the group the message was posted in. *)
Theorem X11_no_echo qq api groups msg call :
  call ∈ (onGroupMessage qq api groups msg).2 →
  call_group call ≠ sender_group msg ∧
  ∃ dest, dest ∈ groups ∧ call_group call = group dest.
Proof.
  unfold onGroupMessage, fan_out_calls.
  destruct (list_find _ groups) as [[o og]|]; cbn [snd].
  - rewrite <- list_fmap_compose.
    intros ([t dest] & -> & [Hd Hne]%elem_of_targets)%list_elem_of_fmap.
    split; [done |]. exists dest. split; [| done]. by eapply list_elem_of_lookup_2.
  - intros H. by apply elem_of_nil in H.
Qed.

Lemma X11_no_echo_witness :
  let call := {| call_chain := [Source 10 0; Plain "hi"]; call_group := 2;
                 call_quote := None |} in
  call_group call ≠ sender_group Example.hi ∧
  ∃ dest, dest ∈ Example.groups0 ∧ call_group call = group dest.
Proof.
  intros call.
  apply (X11_no_echo Example.bot Example.send_ok Example.groups0 Example.hi call).
  vm_compute. left.
Defined.

(** X12: a message of a group that is not configured causes no send and
    changes nothing; and when every send of a fan-out rejects, with
    whatever value, no cache is changed either. *)
Theorem X12_nothing_recorded qq api groups msg :
  (Forall (λ g, group g ≠ sender_group msg) groups →
     onGroupMessage qq api groups msg = (groups, [])) ∧
  ((∀ n call, ∃ e, api n call = Rejected e) →
     (onGroupMessage qq api groups msg).1 = groups).
Proof.
  split.
  - intros H. unfold onGroupMessage.
    by rewrite (proj2 (list_find_None (λ g, group g = sender_group msg) groups)).
  - intros Hfail.
    destruct (list_find (λ g, group g = sender_group msg) groups) as [[o og]|] eqn:Hfind.
    + rewrite (onGroupMessage_fst qq api groups msg o og Hfind).
      assert (fan_out_results qq api groups msg = []) as ->; [| done].
      destruct (fan_out_results qq api groups msg) as [|[s t] rs] eqn:E; [done |].
      assert ((s, t) ∈ fan_out_results qq api groups msg) as Hin by (rewrite E; left).
      apply elem_of_fan_out_results in Hin as (_ & n & call & _ & Hs).
      destruct (Hfail n call) as [e He]. congruence.
    + unfold onGroupMessage. by rewrite Hfind.
Qed.

Lemma X12_nothing_recorded_witness :
  onGroupMessage Example.bot Example.send_ok Example.groups0
    {| sender_group := 9; sender_id := 1; source := (10, 0)%Z; body := [Plain "hi"] |}
  = (Example.groups0, []) ∧
  (onGroupMessage Example.bot (λ _ _, Rejected RejectNull) Example.groups0 Example.hi).1
  = Example.groups0.
Proof.
  split.
  - apply X12_nothing_recorded.
    repeat (apply Forall_cons_2; [discriminate |]). apply Forall_nil_2.
  - apply X12_nothing_recorded. intros n call. by eexists.
Defined.

(** X13: the handler never changes the configuration: the number of
    groups, their ids and their member lists are the same after it, and
    only the caches of the source group and of the destinations whose
    send succeeded can differ. *)
Theorem X13_frame qq api groups msg o og :
  list_find (λ g, group g = sender_group msg) groups = Some (o, og) →
  let groups' := (onGroupMessage qq api groups msg).1 in
  length groups' = length groups ∧
  group <$> groups' = group <$> groups ∧
  members <$> groups' = members <$> groups ∧
  ∀ i, i ≠ o → i ∉ (fan_out_results qq api groups msg).*2 →
    groups' !! i = groups !! i.
Proof.
  intros Hfind groups'. split_and!.
  - rewrite <- (length_fmap group groups'), <- (length_fmap group groups).
    unfold groups'. by rewrite handler_group.
  - apply handler_group.
  - apply handler_members.
  - intros i Ho Hi. unfold groups'.
    rewrite (lookup_onGroupMessage qq api groups msg o og i Hfind).
    rewrite adds_untouched by done.
    destruct (groups !! i) as [g|]; [| done]. cbn. by rewrite update_stored_id.
Qed.

Lemma X13_frame_witness :
  group <$> Example.groups1 = [1%Z; 2%Z; 3%Z] ∧
  (onGroupMessage Example.bot Example.send_fail_B Example.groups0 Example.hi).1 !! 1
  = Some Example.groupB.
Proof.
  destruct (X13_frame Example.bot Example.send_ok Example.groups0 Example.hi 0
              Example.groupA) as (_ & H2 & _ & _); [vm_compute; reflexivity |].
  destruct (X13_frame Example.bot Example.send_fail_B Example.groups0 Example.hi 0
              Example.groupA) as (_ & _ & _ & H4); [vm_compute; reflexivity |].
  split.
  - unfold Example.groups1. rewrite H2. reflexivity.
  - rewrite H4; [reflexivity | lia |].
    apply (bool_decide_unpack _). vm_compute. exact I.
Defined.

Lemma run_snoc qq events e groups :
  run qq (events ++ [e]) groups = (onGroupMessage qq e.1 (run qq events groups) e.2).1.
Proof. unfold run. by rewrite foldl_app. Qed.

End HandlerExtras.

(** ** Start-up and runs *)

Section StartExtras.

Implicit Types (qq : Z) (groups : list Group) (groupNumbers : list Z)
  (memberList : nat → Z → option (list Member)).

Lemma new_Map_snoc (entries : list (Z * string)) k n :
  new_Map (entries ++ [(k, n)]) = <[k := n]> (new_Map entries).
Proof. unfold new_Map. by rewrite foldl_app. Qed.

Lemma new_Map_lookup (entries : list (Z * string)) k :
  new_Map entries !! k = snd <$> last (filter (λ kv, kv.1 = k) entries).
Proof.
  induction entries as [|[k' n] entries IH] using rev_ind; [done |].
  rewrite new_Map_snoc, filter_app. destruct (decide (k' = k)) as [-> | Hne].
  - rewrite lookup_insert_eq, filter_cons_True by done.
    rewrite filter_nil, last_snoc. done.
  - rewrite lookup_insert_ne by done. rewrite filter_cons_False by done.
    by rewrite filter_nil, app_nil_r.
Qed.

(** X14: the member snapshot built by [updateMemberList] knows exactly
    the users that the platform listed, each under the name of the LAST
    entry listed for that user. *)
Theorem X14_member_snapshot (list : list Member) (g : Group) (user : Z) :
  ∃ g', updateMemberList (Some list) g = Some g' ∧
    group g' = group g ∧ stored g' = stored g ∧
    members g' !! user
      = memberName <$> last (filter (λ m, member_id m = user) list) ∧
    (user ∈ dom (members g') ↔ user ∈ member_id <$> list).
Proof.
  eexists. split; [reflexivity |]. cbn [group stored members].
  assert (new_Map ((λ m, (member_id m, memberName m)) <$> list) !! user
          = memberName <$> last (filter (λ m, member_id m = user) list)) as E.
  { rewrite new_Map_lookup. clear g.
    induction list as [|m list IH] using rev_ind; [done |].
    rewrite fmap_app, !filter_app. cbn [fmap list_fmap].
    destruct (decide (member_id m = user)) as [Hm | Hm].
    - rewrite !filter_cons_True by done. by rewrite !filter_nil, !last_snoc.
    - rewrite !filter_cons_False by done. by rewrite !filter_nil, !app_nil_r. }
  split_and!; [done | done | done |].
  rewrite elem_of_dom, E. split.
  - intros [n Hn]. destruct (last _) as [m|] eqn:Hl; [| done].
    apply last_Some_elem_of, list_elem_of_filter in Hl as [<- Hl].
    apply list_elem_of_fmap. by exists m.
  - intros (m & -> & Hm)%list_elem_of_fmap.
    destruct (last (filter (λ m', member_id m' = member_id m) list)) as [m'|] eqn:Hl;
      [by eexists |].
    apply last_None in Hl.
    assert (m ∈ filter (λ m', member_id m' = member_id m) list) as Hin
      by by apply list_elem_of_filter.
    rewrite Hl in Hin. by apply elem_of_nil in Hin.
Qed.

Lemma start_groups_lookup memberList groupNumbers groups n :
  start_groups memberList groupNumbers = Some groups →
  groups !! n =
    (groupNumbers !! n) ≫= λ gn,
      updateMemberList (memberList n gn)
        {| group := gn; members := ∅; stored := new_StoredMessages |}.
Proof.
  unfold start_groups, make_groups. intros H%mapM_Some_1.
  destruct (groupNumbers !! n) as [gn|] eqn:Hgn; cbn.
  - eapply (Forall2_lookup_l _ _ _ n) in H as (g & Hg & E).
    + rewrite Hg. symmetry. exact E.
    + rewrite list_lookup_imap, list_lookup_fmap, Hgn. reflexivity.
  - destruct (groups !! n) as [g|] eqn:Hg; [| done].
    eapply (Forall2_lookup_r _ _ _ n) in H as (x & Hx & _); [| exact Hg].
    rewrite list_lookup_imap, list_lookup_fmap, Hgn in Hx. discriminate.
Qed.

Lemma start_groups_length memberList groupNumbers groups :
  start_groups memberList groupNumbers = Some groups →
  length groups = length groupNumbers.
Proof.
  unfold start_groups, make_groups. intros H%length_mapM.
  by rewrite length_imap, length_fmap in H.
Qed.

Lemma start_groups_ids memberList groupNumbers groups :
  start_groups memberList groupNumbers = Some groups →
  group <$> groups = groupNumbers ∧
  Forall (λ g, stored g = new_StoredMessages) groups.
Proof.
  intros H. pose proof (start_groups_length _ _ _ H) as Hlen. split.
  - apply list_eq. intros n. rewrite list_lookup_fmap.
    pose proof (start_groups_lookup _ _ _ n H) as Hn.
    destruct (groupNumbers !! n) as [gn|] eqn:Hgn; cbn in Hn.
    + destruct (groups !! n) as [g|] eqn:Hg.
      * unfold updateMemberList in Hn.
        destruct (memberList n gn); [| done]. by injection Hn as ->.
      * apply lookup_ge_None in Hg. apply lookup_lt_Some in Hgn. lia.
    + by rewrite Hn.
  - apply Forall_lookup. intros n g Hg.
    pose proof (start_groups_lookup _ _ _ n H) as Hn. rewrite Hg in Hn.
    destruct (groupNumbers !! n) as [gn|]; cbn in Hn; [| done].
    unfold updateMemberList in Hn.
    destruct (memberList n gn); [| done]. by injection Hn as ->.
Qed.

(** X15: start-up succeeds exactly when every member list loads; the
    groups then are the configured group numbers, in order, each with a new
    (empty) cache, and a single member list that fails to load leaves the
    relay without groups. *)
Theorem X15_start_groups memberList groupNumbers :
  (start_groups memberList groupNumbers = None ↔
     ∃ n gn, groupNumbers !! n = Some gn ∧ memberList n gn = None) ∧
  (∀ groups, start_groups memberList groupNumbers = Some groups →
     group <$> groups = groupNumbers ∧
     Forall (λ g, stored g = new_StoredMessages) groups).
Proof.
  split.
  - unfold start_groups, make_groups. split.
    + intros H%mapM_None_1. apply Exists_exists in H as (x & Hx & ->).
      apply elem_of_lookup_imap in Hx as (n & g & Hx & Hg).
      rewrite list_lookup_fmap in Hg.
      destruct (groupNumbers !! n) as [gn|] eqn:Hgn; [| done].
      injection Hg as <-. cbn [group] in Hx. exists n, gn. split; [done |].
      by destruct (memberList n gn).
    + intros (n & gn & Hgn & Hm). apply mapM_None_2, Exists_exists.
      exists None. split; [| done]. apply elem_of_lookup_imap.
      eexists n, _. split; [| by rewrite list_lookup_fmap, Hgn].
      cbn [group]. by rewrite Hm.
  - apply start_groups_ids.
Qed.

Lemma X15_start_groups_witness :
  group <$> default []
    (start_groups (λ _ _, Some [ {| member_id := 1; memberName := "X" |} ]) [1; 2]%Z)
  = [1; 2]%Z.
Proof.
  destruct (X15_start_groups (λ _ _, Some [ {| member_id := 1; memberName := "X" |} ])
              [1; 2]%Z) as [_ H].
  destruct (H (default [] (start_groups
                 (λ _ _, Some [ {| member_id := 1; memberName := "X" |} ]) [1; 2]%Z)))
    as [E _]; [vm_compute; reflexivity | exact E].
Defined.

Lemma run_invariant qq events : ∀ groups,
  Forall (λ g, bounded (stored g)) groups →
  group <$> run qq events groups = group <$> groups ∧
  members <$> run qq events groups = members <$> groups ∧
  Forall (λ g, bounded (stored g)) (run qq events groups).
Proof.
  induction events as [|e events IH] using rev_ind; intros groups Hb; [done |].
  destruct (IH groups Hb) as (IH1 & IH2 & IH3). rewrite run_snoc.
  rewrite handler_group, handler_members. split_and!; [done | done |].
  by apply handler_bounded.
Qed.

(** X16: whatever messages arrive and whatever the sends answer, the
    relay keeps the groups it was started with: the same group numbers and
    member lists, and in the cache of every group at most 201 entries per
    generation, hence at most 402 translated keys. *)
Theorem X16_run_invariant qq memberList groupNumbers groups0
    (events : list ((nat → SendCall → SendResult) * GroupMessage)) :
  start_groups memberList groupNumbers = Some groups0 →
  let groups := run qq events groups0 in
  group <$> groups = groupNumbers ∧
  members <$> groups = members <$> groups0 ∧
  Forall (λ g, wf (stored g) ∧
               Forall (λ m, size m ≤ 201) (data (stored g)) ∧
               size (reachable (stored g)) ≤ 402) groups.
Proof.
  intros Hstart groups.
  destruct (start_groups_ids memberList groupNumbers groups0 Hstart) as [Hg Hs].
  assert (Forall (λ g, bounded (stored g)) groups0) as Hb.
  { eapply Forall_impl; [exact Hs |]. intros g ->. apply bounded_new. }
  destruct (run_invariant qq events groups0 Hb) as (H1 & H2 & H3).
  fold groups in H1, H2, H3.
  split_and!; [by rewrite H1 | done |].
  eapply Forall_impl; [exact H3 |]. intros g Hbg. split_and!.
  - by destruct Hbg.
  - by apply bounded_generations.
  - destruct Hbg as (_ & Hc & Ho). pose proof (size_reachable (stored g)).
    unfold threshold in *. lia.
Qed.

Lemma X16_run_invariant_witness :
  group <$> run Example.bot [(Example.send_ok, Example.hi); (Example.send_ok, Example.reply)]
              (default [] (start_groups (λ _ _, Some []) [1; 2; 3]%Z))
  = [1; 2; 3]%Z.
Proof.
  destruct (X16_run_invariant Example.bot (λ _ _, Some []) [1; 2; 3]%Z
              (default [] (start_groups (λ _ _, Some []) [1; 2; 3]%Z))
              [(Example.send_ok, Example.hi); (Example.send_ok, Example.reply)])
    as [E _]; [vm_compute; reflexivity | exact E].
Defined.

End StartExtras.

(** ** A relayed message and the replies to it *)

Section ReplyExtras.

Implicit Types (qq : Z) (api : nat → SendCall → SendResult)
  (groups : list Group) (msg : GroupMessage).

Lemma resolved_quotes_no_quote cache (chain : list MessageType) :
  Forall (λ x, is_quote x = false) chain → resolved_quotes cache chain = [].
Proof.
  unfold resolved_quotes. induction chain as [|x chain IH]; intros H; [done |].
  apply Forall_cons in H as [Hx H]. destruct x; try done; simpl; by apply IH.
Qed.

(** The last quote segment of a chain decides when the cache translates
    it. *)
Lemma spec_quote_last cache pre i q post :
  translate i cache = Some q → Forall (λ x, is_quote x = false) post →
  spec_quote cache (pre ++ Quote i :: post) = Some q.
Proof.
  intros Hi Hpost. unfold spec_quote.
  assert (resolved_quotes cache (pre ++ Quote i :: post)
          = resolved_quotes cache pre ++ [q]) as ->; [| apply last_snoc].
  unfold resolved_quotes. rewrite omap_app. f_equal. simpl. rewrite Hi. f_equal.
  apply (resolved_quotes_no_quote cache post Hpost).
Qed.

(** The send for a destination, and the quote it carries. *)
Lemma call_for_destination qq groups msg o og t dest :
  list_find (λ g, group g = sender_group msg) groups = Some (o, og) →
  groups !! t = Some dest → group dest ≠ sender_group msg →
  ∃ call, (t, call) ∈ fan_out_calls qq groups msg ∧
    call_group call = group dest ∧
    call_quote call = id <$> spec_quote (stored dest) (messageChain msg).
Proof.
  intros Hfind Ht Hne.
  exists (make_call qq groups (Some og) dest (messageChain msg)). split_and!.
  - unfold fan_out_calls. rewrite Hfind. apply list_elem_of_fmap.
    exists (t, dest). split; [done |]. by apply elem_of_targets.
  - done.
  - unfold make_call. cbn [call_quote]. by rewrite process_chain_quote.
Qed.

Lemma handler_adds_lookup qq api groups msg i :
  (onGroupMessage qq api groups msg).1 !! i
  = update_stored (add_all (handler_adds qq api groups msg i)) <$> groups !! i.
Proof.
  unfold handler_adds.
  destruct (list_find (λ g, group g = sender_group msg) groups) as [[o og]|] eqn:Hfind.
  - by apply (lookup_onGroupMessage qq api groups msg o og).
  - unfold onGroupMessage. rewrite Hfind. cbn [fst].
    destruct (groups !! i) as [g|]; [| done]. cbn. by rewrite update_stored_id.
Qed.

Lemma run_adds_lookup qq events i : ∀ groups,
  run qq events groups !! i
  = update_stored (add_all (run_adds qq events groups i)) <$> groups !! i.
Proof.
  induction events as [|e events IH]; intros groups.
  - cbn. destruct (groups !! i) as [g|]; [| done]. cbn. by rewrite update_stored_id.
  - change (run qq (e :: events) groups)
      with (run qq events (onGroupMessage qq e.1 groups e.2).1).
    rewrite IH, handler_adds_lookup. cbn [run_adds].
    destruct (groups !! i) as [g|]; [| done]. cbn [fmap option_fmap option_map].
    by rewrite update_stored_compose.
Qed.

Lemma run_group qq events : ∀ groups, group <$> run qq events groups = group <$> groups.
Proof.
  induction events as [|e events IH]; intros groups; [done |].
  change (run qq (e :: events) groups)
    with (run qq events (onGroupMessage qq e.1 groups e.2).1).
  by rewrite IH, handler_group.
Qed.

Lemma find_same_ids (gs1 gs2 : list Group) x o og :
  group <$> gs2 = group <$> gs1 →
  list_find (λ g, group g = x) gs1 = Some (o, og) →
  ∃ og', list_find (λ g, group g = x) gs2 = Some (o, og').
Proof.
  intros E (Ho & Hg & Hbefore)%list_find_Some.
  assert (∀ j, group <$> gs2 !! j = group <$> gs1 !! j) as Ej.
  { intros j. by rewrite <- !list_lookup_fmap, E. }
  pose proof (Ej o) as Eo. rewrite Ho in Eo.
  destruct (gs2 !! o) as [og'|] eqn:Ho'; [| done].
  exists og'. apply list_find_Some. split_and!; [done | |].
  - cbn in Eo. congruence.
  - intros j y Hy Hj. pose proof (Ej j) as Ejj. rewrite Hy in Ejj.
    destruct (gs1 !! j) as [y0|] eqn:Hy0; [| done].
    cbn in Ejj. injection Ejj as Ejj. rewrite Ejj. by apply (Hbefore j).
Qed.

Lemma holds_mono k v n n' s : n ≤ n' → holds k v n s → holds k v n' s.
Proof.
  intros Hn [Hwf [H | (H1 & H2 & H3)]]; (split; [done |]); [by left |].
  right. split_and!; [done | done | lia].
Qed.

Lemma holds_after_add k v s : wf s → holds k v 0 (add k v s).
Proof.
  intros Hwf. split; [by apply wf_add |]. left.
  destruct (add_view k v s Hwf) as [_ H].
  destruct (over_threshold s); destruct H as [-> _];
    by rewrite ?lookup_singleton_eq, ?lookup_insert_eq.
Qed.

(** An entry of a batch of insertions that all carry the same value is
    held after the batch. *)
Lemma holds_after_batch k v l s :
  wf s → (k, v) ∈ l → Forall (λ kv, kv.2 = v) l → length l ≤ S (S threshold) →
  holds k v (length l - 1) (add_all l s).
Proof.
  intros Hwf Hin Hv Hlen.
  apply list_elem_of_split in Hin as (l1 & l2 & ->).
  rewrite add_all_app. cbn [add_all foldl fst snd].
  change (foldl _ ?s0 l2) with (add_all l2 s0).
  rewrite length_app in *. cbn [length] in *.
  apply Forall_app in Hv as [_ Hv]. apply Forall_cons in Hv as [_ Hv].
  apply (holds_mono k v (0 + length l2)); [lia |].
  apply holds_add_all; [| done | lia].
  apply holds_after_add, wf_add_all, Hwf.
Qed.

(** The entry survives further insertions of other keys. *)
Lemma translate_after_batch k v l l' s :
  wf s → (k, v) ∈ l → Forall (λ kv, kv.2 = v) l →
  k ∉ l'.*1 → length l + length l' ≤ S (S threshold) →
  translate k (add_all l' (add_all l s)) = Some v.
Proof.
  intros Hwf Hin Hv Hk Hlen.
  assert (0 < length l) as Hpos.
  { destruct l; [by apply elem_of_nil in Hin | simpl; lia]. }
  apply (holds_translate k v (length l - 1 + length l')).
  apply holds_add_all_other; [| done | lia].
  apply holds_after_batch; [done | done | done | lia].
Qed.

(** The caches after a fan-out: what the destination at position [t] and
    the source received. *)
Lemma caches_after qq api groups msg o og s t :
  list_find (λ g, group g = sender_group msg) groups = Some (o, og) →
  (s, t) ∈ fan_out_results qq api groups msg →
  let results := fan_out_results qq api groups msg in
  let groups' := (onGroupMessage qq api groups msg).1 in
  t ≠ o ∧
  (∃ dest, groups !! t = Some dest ∧ group dest ≠ sender_group msg ∧
     groups' !! t
       = Some (update_stored
                 (add_all
                    (((λ other : Z * nat,
                         (other.1, {| id := s; author := sender_id msg |}))
                        <$> others results t)
                     ++ [(messageId msg, {| id := s; author := sender_id msg |})]))
                 dest)) ∧
  groups' !! o
    = Some (update_stored
              (add_all ((λ r : Z * nat,
                           (r.1, {| id := messageId msg; author := sender_id msg |}))
                          <$> results))
              og).
Proof.
  intros Hfind Hin results groups'.
  pose proof (NoDup_fan_out_results qq api groups msg) as Hnd. fold results in Hnd.
  pose proof (source_not_a_result qq api groups msg o og Hfind) as Hsrc.
  fold results in Hsrc.
  destruct (fan_out_results_dest qq api groups msg o og s t Hfind Hin)
    as [Hto (dest & Hd & Hne)].
  split; [done |]. split.
  - exists dest. split; [done |]. split; [done |].
    unfold groups'. rewrite (lookup_onGroupMessage qq api groups msg o og t Hfind).
    fold results. rewrite (adds_at_target _ _ o results results s t Hnd Hin Hto).
    by rewrite Hd.
  - apply list_find_Some in Hfind as Hfind'. destruct Hfind' as (Ho & _ & _).
    unfold groups'. rewrite (lookup_onGroupMessage qq api groups msg o og o Hfind).
    fold results. rewrite (adds_at_source _ _ o results results Hsrc).
    by rewrite Ho.
Qed.

Lemma wf_lookup groups i g :
  Forall (λ g, wf (stored g)) groups → groups !! i = Some g → wf (stored g).
Proof.
  intros Hwf Hg. eapply (Forall_forall (λ g, wf (stored g))); [exact Hwf |].
  by eapply list_elem_of_lookup_2.
Qed.

(** X17: a reply in the source group reaches the copies.  After a fan-out
    recorded the relay of a message [m] to a destination as [s] (the send
    returned [s] and no [catch] block threw), take any run of the relay in
    which at most threshold + 1 = 201 mappings are recorded in that
    destination's cache, none of them under the id [m].  A message of the
    source group that comes after it and whose last quote segment quotes
    [m] is sent to that destination as a reply to [s]. *)
Theorem X17_reply_in_source qq api api2 events groups msg msg2 o og s t pre post :
  Forall (λ g, wf (stored g)) groups →
  list_find (λ g, group g = sender_group msg) groups = Some (o, og) →
  (s, t) ∈ fan_out_results qq api groups msg →
  let groups' := (onGroupMessage qq api groups msg).1 in
  let groups'' := run qq events groups' in
  messageId msg ∉ (run_adds qq events groups' t).*1 →
  length (run_adds qq events groups' t) ≤ S threshold →
  sender_group msg2 = sender_group msg →
  body msg2 = pre ++ Quote (messageId msg) :: post →
  Forall (λ x, is_quote x = false) post →
  ∃ call, call ∈ (onGroupMessage qq api2 groups'' msg2).2 ∧
    (t, call) ∈ fan_out_calls qq groups'' msg2 ∧
    call_quote call = Some s.
Proof.
  intros Hwf Hfind Hin groups' groups'' Hfresh Hlen Hsame Hbody Hpost.
  destruct (caches_after qq api groups msg o og s t Hfind Hin)
    as (Hto & (dest & Hd & Hne & Hd') & _).
  fold groups' in Hd'.
  pose proof (run_adds_lookup qq events t groups') as Ht. fold groups'' in Ht.
  rewrite Hd' in Ht. cbn [fmap option_fmap option_map] in Ht.
  destruct (find_same_ids groups groups'' (sender_group msg) o og) as [og'' Hfind''];
    [| exact Hfind |].
  { unfold groups'', groups'. by rewrite run_group, handler_group. }
  rewrite <- Hsame in Hfind''.
  destruct (call_for_destination qq groups'' msg2 o og'' t _ Hfind'' Ht)
    as (call & Hc & _ & Hq); [cbn; congruence |].
  exists call. split_and!; [| done |].
  - unfold onGroupMessage. rewrite Hfind''. cbn [snd].
    apply list_elem_of_fmap. by exists (t, call).
  - rewrite Hq. unfold messageChain. rewrite Hbody, app_comm_cons.
    rewrite (spec_quote_last _ _ _ {| id := s; author := sender_id msg |} _);
      [done | | done].
    cbn [stored update_stored]. rewrite add_all_app.
    apply (translate_after_batch _ _ [(messageId msg, _)]).
    + apply wf_add_all. by eapply wf_lookup.
    + left.
    + by apply Forall_singleton.
    + done.
    + cbn [length]. lia.
Qed.

Lemma X17_reply_in_source_witness :
  ∃ call,
    call ∈ (onGroupMessage Example.bot Example.send_ok
              (run Example.bot [(Example.send_ok, Example.ping)] Example.groups1)
              Example.reply).2 ∧
    (2, call) ∈ fan_out_calls Example.bot
                  (run Example.bot [(Example.send_ok, Example.ping)] Example.groups1)
                  Example.reply ∧
    call_quote call = Some 30%Z.
Proof.
  apply (X17_reply_in_source Example.bot Example.send_ok Example.send_ok
           [(Example.send_ok, Example.ping)]
           Example.groups0 Example.hi Example.reply 0 Example.groupA 30 2 []
           [At 100 "bot"; Plain "re"; At 100 "bot"; At 3 "w"]).
  - repeat (apply Forall_cons_2; [apply wf_new |]). apply Forall_nil_2.
  - vm_compute. reflexivity.
  - vm_compute. right. left.
  - apply (bool_decide_unpack _). vm_compute. exact I.
  - vm_compute. lia.
  - reflexivity.
  - reflexivity.
  - repeat (apply Forall_cons_2; [reflexivity |]). apply Forall_nil_2.
Defined.

(** X18: a reply to a copy reaches the original and the other copies.
    After a fan-out recorded the relay of a message [m], among others as
    [s] to a destination group (no [catch] block threw), take any run of
    the relay and a message of that group that comes
    after it and whose last quote segment quotes [s].  It is sent to the
    source group as a reply to [m], provided the run recorded nothing under
    the id [s] in the source's cache and the successful destinations of
    [m] and the mappings the run recorded in that cache are at most
    threshold + 2 = 202 together; and under the same two conditions on the
    cache of another destination that [m] reached (with another group
    number) it is sent there as a reply to that destination's own copy. *)
Theorem X18_reply_in_destination qq api events groups msg msg2 o og s t dest pre post :
  Forall (λ g, wf (stored g)) groups →
  list_find (λ g, group g = sender_group msg) groups = Some (o, og) →
  (s, t) ∈ fan_out_results qq api groups msg →
  list_find (λ g, group g = sender_group msg2) groups = Some (t, dest) →
  body msg2 = pre ++ Quote s :: post →
  Forall (λ x, is_quote x = false) post →
  let results := fan_out_results qq api groups msg in
  let groups' := (onGroupMessage qq api groups msg).1 in
  let groups'' := run qq events groups' in
  (s ∉ (run_adds qq events groups' o).*1 →
   length results + length (run_adds qq events groups' o) ≤ S (S threshold) →
   ∃ call, (o, call) ∈ fan_out_calls qq groups'' msg2 ∧
     call_group call = sender_group msg ∧
     call_quote call = Some (messageId msg)) ∧
  (∀ s' t' dest', (s', t') ∈ results → t' ≠ t →
     groups !! t' = Some dest' → group dest' ≠ sender_group msg2 →
     s ∉ (run_adds qq events groups' t').*1 →
     length results + length (run_adds qq events groups' t') ≤ S (S threshold) →
     ∃ call, (t', call) ∈ fan_out_calls qq groups'' msg2 ∧
       call_group call = group dest' ∧ call_quote call = Some s').
Proof.
  intros Hwf Hfind Hin Hfind2 Hbody Hpost results groups' groups''.
  destruct (find_same_ids groups groups'' (sender_group msg2) t dest) as [dest2 Hfind2''];
    [| exact Hfind2 |].
  { unfold groups'', groups'. by rewrite run_group, handler_group. }
  destruct (caches_after qq api groups msg o og s t Hfind Hin)
    as (Hto & (dest0 & Hd0 & Hne & _) & Ho').
  fold groups' results in Ho'.
  apply list_find_Some in Hfind2 as Hf2. destruct Hf2 as (Hd & Hgd & _).
  assert (dest0 = dest) as -> by congruence.
  apply list_find_Some in Hfind as Hf1. destruct Hf1 as (Hog & Hgo & _).
  split.
  - intros Hfresh Hlen.
    pose proof (run_adds_lookup qq events o groups') as Ho''. fold groups'' in Ho''.
    rewrite Ho' in Ho''. cbn [fmap option_fmap option_map] in Ho''.
    destruct (call_for_destination qq groups'' msg2 t dest2 o _ Hfind2'' Ho'')
      as (call & Hc & Hcg & Hq); [cbn; congruence |].
    exists call. split_and!; [done | cbn in Hcg; congruence |].
    rewrite Hq. unfold messageChain. rewrite Hbody, app_comm_cons.
    rewrite (spec_quote_last _ _ _
               {| id := messageId msg; author := sender_id msg |} _); [done | | done].
    cbn [stored update_stored].
    apply translate_after_batch.
    + by eapply wf_lookup.
    + apply list_elem_of_fmap. by exists (s, t).
    + apply Forall_fmap, Forall_true. done.
    + done.
    + by rewrite length_fmap.
  - intros s' t' dest' Hin' Hne' Hd' Hg' Hfresh Hlen.
    destruct (caches_after qq api groups msg o og s' t' Hfind Hin')
      as (_ & (d0 & Hd0' & _ & Hd1) & _).
    assert (d0 = dest') as -> by congruence. fold groups' results in Hd1.
    pose proof (run_adds_lookup qq events t' groups') as Ht''. fold groups'' in Ht''.
    rewrite Hd1 in Ht''. cbn [fmap option_fmap option_map] in Ht''.
    destruct (call_for_destination qq groups'' msg2 t dest2 t' _ Hfind2'' Ht'')
      as (call & Hc & Hcg & Hq); [cbn; congruence |].
    exists call. split_and!; [done | done |].
    rewrite Hq. unfold messageChain. rewrite Hbody, app_comm_cons.
    rewrite (spec_quote_last _ _ _ {| id := s'; author := sender_id msg |} _);
      [done | | done].
    cbn [stored update_stored].
    pose proof (length_filter_lt (λ other : Z * nat, other.2 ≠ t') results (s', t') Hin')
      as Hlt.
    apply translate_after_batch.
    + by eapply wf_lookup.
    + apply elem_of_app. left. apply list_elem_of_fmap. exists (s, t).
      split; [done |]. unfold others. apply list_elem_of_filter. split; [| done].
      cbn. congruence.
    + apply Forall_app. split; [| by apply Forall_singleton].
      apply Forall_fmap, Forall_true. done.
    + done.
    + rewrite length_app, length_fmap. unfold others. cbn [length].
      cbn in Hlt. lia.
Qed.

Lemma X18_reply_in_destination_witness :
  ∃ call, (0, call) ∈ fan_out_calls Example.bot
                        (run Example.bot [(Example.send_next, Example.ping)]
                           Example.groups1)
                        {| sender_group := 2; sender_id := 2; source := (21, 0)%Z;
                           body := [] ++ Quote 20 :: [Plain "re"] |} ∧
    call_group call = 1%Z ∧ call_quote call = Some 10%Z.
Proof.
  destruct (X18_reply_in_destination Example.bot Example.send_ok
              [(Example.send_next, Example.ping)] Example.groups0
              Example.hi
              {| sender_group := 2; sender_id := 2; source := (21, 0)%Z;
                 body := [] ++ Quote 20 :: [Plain "re"] |}
              0 Example.groupA 20 1 Example.groupB [] [Plain "re"]) as [H _].
  - repeat (apply Forall_cons_2; [apply wf_new |]). apply Forall_nil_2.
  - vm_compute. reflexivity.
  - vm_compute. left.
  - vm_compute. reflexivity.
  - reflexivity.
  - repeat (apply Forall_cons_2; [reflexivity |]). apply Forall_nil_2.
  - apply H.
    + apply (bool_decide_unpack _). vm_compute. exact I.
    + vm_compute. lia.
Defined.

End ReplyExtras.

(** ** The configuration *)

Section ConfigExtras.

Import Config.

Lemma every_object (d : list (string * (value → bool))) (m : gmap string value) :
  every d (Object m)
  = Return (forallb (λ kd, kd.2 (default Undefined (m !! kd.1))) d).
Proof.
  induction d as [|[k check] d IH]; [done |]. simpl.
  by destruct (check (default Undefined (m !! k))).
Qed.

Lemma every_array (d : list (string * (value → bool))) (l : list value) :
  every d (Array l) = Return (forallb (λ kd, kd.2 Undefined) d).
Proof.
  induction d as [|[k check] d IH]; [done |]. simpl.
  by destruct (check Undefined).
Qed.

Lemma getTypeChecker_cases (d : list (string * (value → bool))) :
  (∀ m, getTypeChecker d (Object m)
        = Return (forallb (λ kd, kd.2 (default Undefined (m !! kd.1))) d)) ∧
  (∀ l, getTypeChecker d (Array l)
        = Return (forallb (λ kd, kd.2 Undefined) d)).
Proof. split; [apply every_object | apply every_array]. Qed.

Lemma is_number_array_numbers (l : list value) :
  forallb is_number l = true → l = Number <$> numbers l.
Proof.
  induction l as [|x l IH]; [done |]. simpl.
  intros [Hx Hl]%andb_true_iff. destruct x; try done.
  unfold numbers. simpl. f_equal. by apply IH.
Qed.

Lemma forallb_is_number_fmap (ns : list Z) : forallb is_number (Number <$> ns) = true.
Proof. induction ns as [|n ns IH]; [done |]. simpl. exact IH. Qed.

(** X19: [parseConfig] returns exactly the loaded value when it is an
    object whose [qq] is a number, whose [mahConfig] is of type "object"
    (an object, an array or [null]) and whose [groups] is an array of
    numbers only (possibly empty); other properties are ignored. *)
Theorem X19_parseConfig_accepts (path : string) (load : string → result value)
    (parsed : value) :
  parseConfig (Some path) load = Return parsed ↔
  load path = Return parsed ∧
  ∃ m q c ns, parsed = Object m ∧
    m !! "qq" = Some (Number q) ∧
    m !! "mahConfig" = Some c ∧ typeof c = "object" ∧
    m !! "groups" = Some (Array (Number <$> ns)).
Proof.
  unfold parseConfig. split.
  - destruct (load path) as [v | err]; [| done].
    destruct (getTypeChecker configDefinition v) as [[|] | err] eqn:E; try done.
    intros [= ->]. split; [done |].
    destruct parsed as [| | b | n | s | l | m];
      try (vm_compute in E; discriminate E).
    rewrite (proj1 (getTypeChecker_cases configDefinition)) in E. injection E as E.
    cbn [forallb configDefinition fst snd] in E.
    apply andb_true_iff in E as [Hq E]. apply andb_true_iff in E as [Hc E].
    apply andb_true_iff in E as [Hg _].
    destruct (m !! "qq") as [[| | | q | | |]|] eqn:Eq; try done.
    destruct (m !! "mahConfig") as [c|] eqn:Ec; [| done].
    destruct (m !! "groups") as [[| | | | | l |]|] eqn:Eg; try done.
    exists m, q, c, (numbers l). split_and!; [done | done | done | |].
    + by apply bool_decide_eq_true in Hc.
    + cbn in Hg. by rewrite <- is_number_array_numbers.
  - intros [-> (m & q & c & ns & -> & Hq & Hc & Ht & Hg)].
    rewrite (proj1 (getTypeChecker_cases configDefinition)).
    cbn [forallb configDefinition fst snd]. rewrite Hq, Hc, Hg. cbn.
    rewrite (bool_decide_eq_true_2 _ Ht), forallb_is_number_fmap. done.
Qed.

Lemma X19_parseConfig_accepts_witness :
  let cfg := Object {[ "qq" := Number 100; "mahConfig" := Null;
                       "groups" := Array [] ]} in
  parseConfig (Some "c.json") (λ _, Return cfg) = Return cfg.
Proof.
  intros cfg. apply X19_parseConfig_accepts. split; [reflexivity |].
  exists {[ "qq" := Number 100; "mahConfig" := Null; "groups" := Array [] ]},
    100%Z, Null, []. split_and!; reflexivity.
Defined.

(** X20: how [parseConfig] fails.  Without a path it throws "missing
    config path"; what loading throws is passed on; a loaded [null] ends in
    a [TypeError], not in "Invalid config"; and every other loaded value
    that is not accepted, any number, string, boolean or array among them,
    ends in "Invalid config". *)
Theorem X20_parseConfig_errors (load : string → result value) (path : string) :
  parseConfig None load = Throw (Error "missing config path") ∧
  (∀ err, load path = Throw err → parseConfig (Some path) load = Throw err) ∧
  (load path = Return Null → parseConfig (Some path) load = Throw TypeError) ∧
  (∀ v, load path = Return v → v ≠ Null →
     parseConfig (Some path) load = Return v ∨
     parseConfig (Some path) load = Throw (Error "Invalid config")) ∧
  (∀ v, load path = Return v → (if v is Object _ then False else True) →
     parseConfig (Some path) load ≠ Return v).
Proof.
  unfold parseConfig. split_and!.
  - done.
  - by intros err ->.
  - by intros ->.
  - intros v -> Hv.
    destruct v as [| | b | n | s | l | m]; try done; try (right; reflexivity).
    rewrite (proj1 (getTypeChecker_cases configDefinition)).
    destruct (forallb _ _); [by left | by right].
  - intros v -> Hv.
    destruct v as [| | b | n | s | l | m]; try done; vm_compute; discriminate.
Qed.

Lemma X20_parseConfig_errors_witness :
  parseConfig (Some "c.json") (λ _, Return Null) = Throw TypeError.
Proof.
  destruct (X20_parseConfig_errors (λ _, Return Null) "c.json") as (_ & _ & H & _).
  by apply H.
Defined.

End ConfigExtras.

(** ** The outcome of a fan-out *)

Section FanOutExtras.

Implicit Types (qq : Z) (api : nat → SendCall → SendResult)
  (groups : list Group) (msg : GroupMessage).

(** X22: the sends of a fan-out do not depend on what any of them gives:
    one send per destination group, in the order of [groups], none
    repeated.  When no [catch] block throws, the results of the fan-out
    are exactly the sends that returned a message id, and a destination
    whose send was rejected is left as it was.  When the [catch] block
    throws for one rejected send, no cache is changed at all, whatever the
    other sends returned. *)
Theorem X22_fan_out_outcome qq api groups msg o og :
  list_find (λ g, group g = sender_group msg) groups = Some (o, og) →
  let calls := fan_out_calls qq groups msg in
  let results := fan_out_results qq api groups msg in
  let groups' := (onGroupMessage qq api groups msg).1 in
  (∀ api', (onGroupMessage qq api' groups msg).2 = calls.*2) ∧
  calls.*1 = (targets groups (sender_group msg)).*1 ∧
  NoDup calls.*1 ∧
  (fan_out_completes qq api groups msg →
     (∀ s t, (s, t) ∈ results ↔
        ∃ n call, calls !! n = Some (t, call) ∧ api n call = Sent s) ∧
     (∀ n t call e, calls !! n = Some (t, call) → api n call = Rejected e →
        groups' !! t = groups !! t)) ∧
  (∀ n tc e, calls !! n = Some tc → api n tc.2 = Rejected e →
     catch_throws e = true → groups' = groups).
Proof.
  intros Hfind calls results groups'.
  pose proof (NoDup_fan_out_calls qq groups msg) as Hndc. fold calls in Hndc.
  split_and!.
  - intros api'. unfold onGroupMessage. by rewrite Hfind.
  - by eapply fan_out_calls_positions.
  - done.
  - intros Hcompletes. split.
    + intros s t. unfold results. rewrite elem_of_fan_out_results. tauto.
    + intros n t call e Hn Hfail.
      assert (t ∈ (targets groups (sender_group msg)).*1) as Ht.
      { rewrite <- (fan_out_calls_positions qq groups msg o og Hfind).
        apply list_elem_of_fmap. exists (t, call). split; [done |].
        by eapply list_elem_of_lookup_2. }
      apply list_elem_of_fmap in Ht as ([t' dest] & Ht' & Hd). simpl in Ht'. subst t'.
      apply elem_of_targets in Hd as [Hd Hne].
      apply list_find_Some in Hfind as Hfind'. destruct Hfind' as (Ho & Hg & _).
      unfold groups'. rewrite (lookup_onGroupMessage qq api groups msg o og t Hfind).
      fold results. rewrite adds_untouched.
      * rewrite Hd. cbn [fmap option_fmap option_map]. by rewrite update_stored_id.
      * intros ->. congruence.
      * intros ([s t'] & Ht' & Hin)%list_elem_of_fmap. simpl in Ht'. subst t'.
        apply elem_of_fan_out_results in Hin as (_ & n' & call' & Hn' & Hs).
        fold calls in Hn'.
        assert (n' = n) as ->.
        { eapply (NoDup_lookup calls.*1 n' n t); [done | |];
            rewrite list_lookup_fmap; [by rewrite Hn' | by rewrite Hn]. }
        congruence.
  - intros n tc e Hn He Hc.
    assert (fan_out_settled qq api groups msg = None) as E
      by (apply fan_out_settled_None; by exists n, tc, e).
    unfold groups', onGroupMessage. by rewrite Hfind, E.
Qed.

Lemma X22_fan_out_outcome_witness :
  (onGroupMessage Example.bot Example.send_fail_B Example.groups0 Example.hi).1 !! 1
    = Some Example.groupB ∧
  (onGroupMessage Example.bot Example.send_undefined_B Example.groups0 Example.hi).1
    = Example.groups0.
Proof.
  destruct (X22_fan_out_outcome Example.bot Example.send_fail_B Example.groups0
              Example.hi 0 Example.groupA) as (_ & _ & _ & H4 & _);
    [vm_compute; reflexivity |].
  destruct (X22_fan_out_outcome Example.bot Example.send_undefined_B Example.groups0
              Example.hi 0 Example.groupA) as (_ & _ & _ & _ & H5);
    [vm_compute; reflexivity |].
  split.
  - destruct H4 as [_ H4].
    + intros n tc e Hn He.
      destruct n as [|[|n]]; vm_compute in Hn; [| | discriminate Hn];
        injection Hn as <-; vm_compute in He; [by injection He as <- | discriminate He].
    + apply (H4 0 1 {| call_chain := [Source 10 0; Plain "hi"]; call_group := 2;
                       call_quote := None |} (RejectValue true));
        vm_compute; reflexivity.
  - apply (H5 0 (1, {| call_chain := [Source 10 0; Plain "hi"]; call_group := 2;
                       call_quote := None |}) RejectUndefined);
      vm_compute; reflexivity.
Defined.

End FanOutExtras.
